(** * Icon selection: a model of src/main.ts and its verified properties

    The program fetches a page, scans its markup with regular expressions
    for icon declarations, ranks the candidates and returns the best one.

    Modelling conventions.
    - A JavaScript string is a list of characters ([str]).  Every pattern of
      the program is written with ASCII characters only, and a character
      outside ASCII never matches an ASCII pattern character, with or
      without the ignore-case flag.
    - A JavaScript number is an integer of [Z].  The numbers of the program
      are small constants and the values of decimal digit runs.  The code
      computes in IEEE doubles, which are exact on integers of magnitude at
      most 2^53: the theorems about numeric values assume that range
      ([exactNumbers], a bound on [parseInt]), and the comparison function
      is also given in doubles ([compareIconsDouble]) to evaluate the code
      outside of it.
    - An exception is the [Throw] completion; try/catch is [tryCatch].
    - The platform (the URL class and fetch) is a parameter, the class
      [Platform]. *)

From Stdlib Require Import List Ascii String ZArith Bool Arith Lia.
From Stdlib Require Import Sorting.Sorted Sorting.Permutation.
From Stdlib Require Import Floats.SpecFloat.
Import ListNotations.

Local Open Scope list_scope.
Local Open Scope bool_scope.

(** ** Strings *)

Definition str : Type := list ascii.

Definition js (s : string) : str := list_ascii_of_string s.

(** The double quote character (code 34) and the single quote. *)
Definition dquote : ascii := Eval cbv in ascii_of_nat 34.
Definition squote : ascii := "'"%char.

Definition isQuote (c : ascii) : bool :=
  Ascii.eqb c dquote || Ascii.eqb c squote.

Definition notQuote (c : ascii) : bool := negb (isQuote c).

Definition isGt (c : ascii) : bool := Ascii.eqb c ">"%char.

Definition notGt (c : ascii) : bool := negb (isGt c).

(** The class \d: the ten ASCII digits. *)
Definition isDigit (c : ascii) : bool :=
  let n := nat_of_ascii c in (48 <=? n) && (n <=? 57).

(** Canonicalisation under the ignore-case flag: on ASCII, a lower-case
    letter is replaced by its upper-case letter, nothing else changes. *)
Definition upcase (c : ascii) : ascii :=
  let n := nat_of_ascii c in
  if (97 <=? n) && (n <=? 122) then ascii_of_nat (n - 32) else c.

Definition sameChar (ignoreCase : bool) (p c : ascii) : bool :=
  if ignoreCase then Ascii.eqb (upcase p) (upcase c) else Ascii.eqb p c.

(** ** Regular expressions

    The patterns of the program are sequences of literal characters,
    single-character classes, and greedy repetitions of a class, some of
    them inside a capture group. *)

Inductive atom : Type :=
| Lit (c : ascii)                       (* a pattern character *)
| Cls (p : ascii -> bool)               (* one character of a class *)
| Rep (capture : bool) (nonEmpty : bool) (p : ascii -> bool).
    (* a class under star (or under plus when nonEmpty), captured when the
       pattern writes it between parentheses *)

Definition regex : Type := list atom.

Definition lits (s : string) : regex := map Lit (js s).

(** The result of a match at a position: the captures, in order, and the
    input left after the match. *)
Definition matched : Type := (list str * str)%type.

(** Greedy repetition with backtracking: take characters of the class as
    long as possible, then give back one at a time until the continuation
    [k] succeeds.  [taken] is what was consumed so far, last character
    first. *)
Fixpoint greedy (p : ascii -> bool) (k : str -> str -> option matched)
    (taken : str) (s : str) : option matched :=
  match s with
  | c :: s' =>
      if p c then
        match greedy p k (c :: taken) s' with
        | Some r => Some r
        | None => k taken s
        end
      else k taken s
  | [] => k taken s
  end.

(** Match [re] at the start of [s]. *)
Fixpoint exec (ignoreCase : bool) (re : regex) (s : str) : option matched :=
  match re with
  | [] => Some ([], s)
  | Lit c :: re' =>
      match s with
      | x :: s' => if sameChar ignoreCase c x then exec ignoreCase re' s' else None
      | [] => None
      end
  | Cls p :: re' =>
      match s with
      | x :: s' => if p x then exec ignoreCase re' s' else None
      | [] => None
      end
  | Rep capture nonEmpty p :: re' =>
      greedy p
        (fun taken rest =>
           match taken, nonEmpty with
           | [], true => None
           | _, _ =>
               match exec ignoreCase re' rest with
               | Some (caps, after) =>
                   Some (if capture then rev taken :: caps else caps, after)
               | None => None
               end
           end)
        [] s
  end.

(** String.prototype.match without the g flag: the leftmost position at
    which the pattern matches; only the captures are used by the program. *)
Fixpoint search (ignoreCase : bool) (re : regex) (s : str) : option (list str) :=
  match exec ignoreCase re s with
  | Some (caps, _) => Some caps
  | None =>
      match s with
      | [] => None
      | _ :: s' => search ignoreCase re s'
      end
  end.

(** String.prototype.match with the g flag, followed by [|| []]: the texts
    of the successive non-overlapping matches, scanning from the left.
    [skip] counts the characters of the current match still to be passed;
    after an empty match the scan moves on by one character. *)
Fixpoint matchAllFrom (ignoreCase : bool) (re : regex) (skip : nat) (s : str)
    : list str :=
  match s with
  | [] =>
      match skip, exec ignoreCase re [] with
      | O, Some _ => [[]]
      | _, _ => []
      end
  | _ :: s' =>
      match skip with
      | S k => matchAllFrom ignoreCase re k s'
      | O =>
          match exec ignoreCase re s with
          | Some (_, rest) =>
              let n := List.length s - List.length rest in
              firstn n s :: matchAllFrom ignoreCase re (n - 1) s'
          | None => matchAllFrom ignoreCase re 0 s'
          end
      end
  end.

Definition matchAll (ignoreCase : bool) (re : regex) (s : str) : list str :=
  matchAllFrom ignoreCase re 0 s.

(** ** extractAttribute (main.ts 214-218)

    The pattern is: the attribute name, an equals sign, a quote character
    (single or double), a captured greedy run of characters that are not
    quote characters, a quote character; with the i flag.  The name is
    spliced into the pattern text; the call sites pass href, sizes and
    content.  The model reads each character of the name as a pattern
    character, which is what the pattern means for a name without pattern
    operators ([plainName]). *)

Definition attributeRegex (attributeName : str) : regex :=
  map Lit attributeName ++ [Lit "="%char; Cls isQuote; Rep true false notQuote; Cls isQuote].

Definition extractAttribute (html : str) (attributeName : str) : option str :=
  match search true (attributeRegex attributeName) html with
  | Some (v :: _) => Some v
  | _ => None
  end.

Definition isNameChar (c : ascii) : bool :=
  let n := nat_of_ascii c in
  ((48 <=? n) && (n <=? 57)) || ((65 <=? n) && (n <=? 90))
  || ((97 <=? n) && (n <=? 122)) || Ascii.eqb c "-"%char || Ascii.eqb c "_"%char
  || Ascii.eqb c ":"%char.

Definition plainName (attributeName : str) : bool := forallb isNameChar attributeName.

(** ** parseSizes (main.ts 220-242) *)

Definition digitValue (c : ascii) : Z := Z.of_nat (nat_of_ascii c - 48).

(** parseInt on a run of decimal digits, as an exact integer.  This is the
    number the code gets when the value is at most 2^53; a larger value
    is rounded to a double by the code, and the theorems that state a
    parsed value assume the bound. *)
Definition parseInt (digits : str) : Z :=
  fold_left (fun acc c => (10 * acc + digitValue c)%Z) digits 0%Z.

(** The two patterns of parseSizes, both without flags: a captured digit
    run, a lower-case x, a captured digit run; and a single captured digit
    run. *)
Definition sizePairRegex : regex :=
  [Rep true true isDigit; Lit "x"%char; Rep true true isDigit].

Definition singleSizeRegex : regex := [Rep true true isDigit].

Definition parseSizes (sizes : option str) : Z * Z :=
  match sizes with
  | None | Some [] => (32, 32)%Z
  | Some sizes =>
      match search false sizePairRegex sizes with
      | Some (w :: h :: _) => (parseInt w, parseInt h)
      | _ =>
          match search false singleSizeRegex sizes with
          | Some (d :: _) => let size := parseInt d in (size, size)
          | _ => (32, 32)%Z
          end
      end
  end.

(** ** Completions: a value or an exception *)

Inductive completion (A : Type) : Type :=
| Normal (a : A)
| Throw.

Arguments Normal {A} a.
Arguments Throw {A}.

Definition bindC {A B : Type} (c : completion A) (f : A -> completion B) : completion B :=
  match c with
  | Normal a => f a
  | Throw => Throw
  end.

(** try { body } catch { handler } on pure code. *)
Definition tryCatchC {A : Type} (body handler : completion A) : completion A :=
  match body with
  | Normal a => Normal a
  | Throw => handler
  end.

(** ** Data model (main.ts 1-17) *)

Inductive IconType : Type := AppleTouchIcon | Favicon | OgImage | Manifest.

Definition IconType_eqb (a b : IconType) : bool :=
  match a, b with
  | AppleTouchIcon, AppleTouchIcon | Favicon, Favicon
  | OgImage, OgImage | Manifest, Manifest => true
  | _, _ => false
  end.

Record IconCandidate : Type := mkIcon {
  url : str;
  width : Z;
  height : Z;
  type : IconType;
  priority : Z
}.

Module ManifestIcon.
Record t : Type := mk { src : str; sizes : option str; type : option str }.
End ManifestIcon.

Record WebManifest : Type := { icons : option (list ManifestIcon.t) }.

(** What the program reads of a fetch Response: the ok flag and the outcome
    of response.json(), which throws on a body that is not JSON. *)
Record Response : Type := { ok : bool; json : completion WebManifest }.

(** ** The platform

    [newURL input base] is the URL constructor (it throws on a reference
    that does not parse), [urlToString] its serialisation.  [fetch] is a
    network request: it changes the world and returns a response or throws
    on a network error. *)

Class Platform : Type := {
  URL : Type;
  newURL : str -> option URL -> completion URL;
  urlToString : URL -> str;
  World : Type;
  fetch : str -> World -> completion Response * World
}.

(** The monad of the async functions: state passing over the world, with
    exceptions. *)
Definition M `{Platform} (A : Type) : Type := World -> completion A * World.

Definition ret `{Platform} {A : Type} (a : A) : M A := fun w => (Normal a, w).

Definition bind `{Platform} {A B : Type} (m : M A) (f : A -> M B) : M B :=
  fun w =>
    match m w with
    | (Normal a, w') => f a w'
    | (Throw, w') => (Throw, w')
    end.

Definition liftC `{Platform} {A : Type} (c : completion A) : M A := fun w => (c, w).

(** try { body } catch { handler }: what the body did to the world stays. *)
Definition tryCatch `{Platform} {A : Type} (body handler : M A) : M A :=
  fun w =>
    match body w with
    | (Normal a, w') => (Normal a, w')
    | (Throw, w') => handler w'
    end.

Notation "x <- m ;; k" := (bind m (fun x => k))
  (at level 61, m at next level, right associativity).

(** for (const x of xs) { body }, threading the array being filled. *)
Fixpoint forEach `{Platform} {A S : Type} (xs : list A) (body : A -> S -> M S) (s : S)
    : M S :=
  match xs with
  | [] => ret s
  | x :: xs' => s' <- body x s ;; forEach xs' body s'
  end.

(** ** resolveUrl (main.ts 244-250) *)

Definition resolveUrl `{Platform} (href : str) (baseUrl : URL) : completion str :=
  tryCatchC
    (bindC (newURL href (Some baseUrl)) (fun u => Normal (urlToString u)))
    (Normal href).

(** ** fetchManifestIcons (main.ts 182-212) *)

Definition fetchManifestIcons `{Platform} (manifestUrl : str) (baseUrl : URL)
    : M (list IconCandidate) :=
  tryCatch
    (response <- fetch manifestUrl ;;
     if negb (ok response) then ret []
     else
       manifest <- liftC (json response) ;;
       match icons manifest with
       | Some manifestIcons =>
           forEach manifestIcons
             (fun icon icons =>
                iconUrl <- liftC (resolveUrl (ManifestIcon.src icon) baseUrl) ;;
                let '(width, height) := parseSizes (ManifestIcon.sizes icon) in
                ret (icons ++ [mkIcon iconUrl width height Manifest 4]))
             []
       | None => ret []
       end)
    (ret []).

(** ** extractIcons (main.ts 93-180)

    The four regular expressions, all with the flags g and i.  In words,
    [appleIconRegex] is: the text <link, any run of characters other than
    the closing angle bracket, rel=, a quote character, apple-touch-icon,
    any run of characters that are not quote characters, a quote character,
    any run of characters other than the closing bracket, the closing
    bracket.  The other three have the exact value icon, og:image or
    manifest between the two quote characters. *)

Definition appleIconRegex : regex :=
  lits "<link" ++ [Rep false false notGt] ++ lits "rel=" ++ [Cls isQuote]
  ++ lits "apple-touch-icon" ++ [Rep false false notQuote; Cls isQuote; Rep false false notGt]
  ++ lits ">".

Definition faviconRegex : regex :=
  lits "<link" ++ [Rep false false notGt] ++ lits "rel=" ++ [Cls isQuote]
  ++ lits "icon" ++ [Cls isQuote; Rep false false notGt] ++ lits ">".

Definition ogImageRegex : regex :=
  lits "<meta" ++ [Rep false false notGt] ++ lits "property=" ++ [Cls isQuote]
  ++ lits "og:image" ++ [Cls isQuote; Rep false false notGt] ++ lits ">".

Definition manifestRegex : regex :=
  lits "<link" ++ [Rep false false notGt] ++ lits "rel=" ++ [Cls isQuote]
  ++ lits "manifest" ++ [Cls isQuote; Rep false false notGt] ++ lits ">".

(** Lines 99-119: apple-touch-icons. *)
Definition appleScan `{Platform} (html : str) (baseUrl : URL) (icons : list IconCandidate)
    : M (list IconCandidate) :=
  let appleMatches := matchAll true appleIconRegex html in
  forEach appleMatches
    (fun m icons =>
       let href := extractAttribute m (js "href") in
       let sizes := extractAttribute m (js "sizes") in
       match href with
       | Some (c :: r) =>
           iconUrl <- liftC (resolveUrl (c :: r) baseUrl) ;;
           let '(width, height) := parseSizes sizes in
           ret (icons ++ [mkIcon iconUrl width height AppleTouchIcon 1])
       | _ => ret icons
       end)
    icons.

(** Lines 121-141: regular favicons. *)
Definition faviconScan `{Platform} (html : str) (baseUrl : URL) (icons : list IconCandidate)
    : M (list IconCandidate) :=
  let faviconMatches := matchAll true faviconRegex html in
  forEach faviconMatches
    (fun m icons =>
       let href := extractAttribute m (js "href") in
       let sizes := extractAttribute m (js "sizes") in
       match href with
       | Some (c :: r) =>
           iconUrl <- liftC (resolveUrl (c :: r) baseUrl) ;;
           let '(width, height) := parseSizes sizes in
           ret (icons ++ [mkIcon iconUrl width height Favicon 2])
       | _ => ret icons
       end)
    icons.

(** Lines 143-161: Open Graph images. *)
Definition ogScan `{Platform} (html : str) (baseUrl : URL) (icons : list IconCandidate)
    : M (list IconCandidate) :=
  let ogMatches := matchAll true ogImageRegex html in
  forEach ogMatches
    (fun m icons =>
       let content := extractAttribute m (js "content") in
       match content with
       | Some (c :: r) =>
           iconUrl <- liftC (resolveUrl (c :: r) baseUrl) ;;
           ret (icons ++ [mkIcon iconUrl 1200 630 OgImage 3])
       | _ => ret icons
       end)
    icons.

(** Lines 165-176: the body of the manifest branch. *)
Definition manifestScan `{Platform} (html : str) (baseUrl : URL) (icons : list IconCandidate)
    : M (list IconCandidate) :=
  let manifestMatches := matchAll true manifestRegex html in
  forEach manifestMatches
    (fun m icons =>
       let href := extractAttribute m (js "href") in
       match href with
       | Some (c :: r) =>
           manifestUrl <- liftC (resolveUrl (c :: r) baseUrl) ;;
           manifestIcons <- fetchManifestIcons manifestUrl baseUrl ;;
           ret (icons ++ manifestIcons)
       | _ => ret icons
       end)
    icons.

(** Lines 97-161: the list after the first three scans. *)
Definition directScan `{Platform} (html : str) (baseUrl : URL) : M (list IconCandidate) :=
  icons <- appleScan html baseUrl [] ;;
  icons <- faviconScan html baseUrl icons ;;
  ogScan html baseUrl icons.

(** Line 164: the test that guards the manifest branch. *)
Definition noDirectIcons (icons : list IconCandidate) : bool :=
  List.length (filter (fun icon => negb (IconType_eqb (type icon) OgImage)) icons) =? 0.

Definition extractIcons `{Platform} (html : str) (baseUrl : URL) : M (list IconCandidate) :=
  icons <- directScan html baseUrl ;;
  if noDirectIcons icons then manifestScan html baseUrl icons else ret icons.

(** ** findBestIcon (main.ts 252-270) *)

Definition TARGET_SIZE : Z := 100.

Definition distance (a : IconCandidate) : Z :=
  (Z.abs (width a - TARGET_SIZE) + Z.abs (height a - TARGET_SIZE))%Z.

(** The comparison function passed to sort, in exact integers.  This is
    what the code computes when the numbers of the two candidates are in
    the range where double arithmetic is exact ([exactNumbers]);
    [compareIconsDouble] below is the same function in doubles. *)
Definition compareIcons (a b : IconCandidate) : Z :=
  if negb (priority a =? priority b)%Z then (priority a - priority b)%Z
  else (distance a - distance b)%Z.

(** Array.prototype.sort is stable: elements that compare equal keep their
    order.  For a consistent comparison function the stable ordering is
    unique ([stable_sort_unique]); it is computed here by insertion. *)
Fixpoint insert {A : Type} (cmp : A -> A -> Z) (x : A) (l : list A) : list A :=
  match l with
  | [] => [x]
  | y :: l' => if (cmp x y <=? 0)%Z then x :: l else y :: insert cmp x l'
  end.

Fixpoint sort {A : Type} (cmp : A -> A -> Z) (l : list A) : list A :=
  match l with
  | [] => []
  | x :: l' => insert cmp x (sort cmp l')
  end.

(** Arrays are objects: the caller and findBestIcon share the array.  A heap
    maps an array reference to its contents. *)
Definition ref : Type := nat.

Definition heap : Type := ref -> list IconCandidate.

Definition update (h : heap) (r : ref) (v : list IconCandidate) : heap :=
  fun r' => if Nat.eqb r' r then v else h r'.

(** icons.sort(...)[0]: the array is sorted in place, its first element is
    returned (undefined, here [None], on an empty array). *)
Definition findBestIcon (icons : ref) (h : heap) : option IconCandidate * heap :=
  let sorted := sort compareIcons (h icons) in
  (hd_error sorted, update h icons sorted).

(** ** A platform to run the program on

    [UrlModel] follows the URL parser of the platform on a fragment of its
    inputs: references with the scheme http or https, or with no scheme,
    written with letters, digits and a few punctuation characters, with no
    port, credentials, query, fragment, escape or dot segment.  [parse]
    answers [None] outside of the fragment; inside, [Some Throw] is a
    reference the constructor rejects. *)

Module UrlModel.

Record t : Type := mk { scheme : str; host : str; path : str }.

Definition serialize (u : t) : str := scheme u ++ js "://" ++ host u ++ path u.

Definition inRange (lo hi : nat) (c : ascii) : bool :=
  let n := nat_of_ascii c in (lo <=? n) && (n <=? hi).

Definition isAlpha (c : ascii) : bool := inRange 65 90 c || inRange 97 122 c.

Definition isAlnum (c : ascii) : bool := isAlpha c || inRange 48 57 c.

Definition lower (c : ascii) : ascii :=
  if inRange 65 90 c then ascii_of_nat (nat_of_ascii c + 32) else c.

Definition oneOf (set : string) (c : ascii) : bool := existsb (Ascii.eqb c) (js set).

Fixpoint span (p : ascii -> bool) (s : str) : str * str :=
  match s with
  | c :: s' => if p c then let (a, b) := span p s' in (c :: a, b) else ([], s)
  | [] => ([], [])
  end.

(** A scheme is a letter, then letters, digits, plus, minus or dot, then
    a colon. *)
Definition splitScheme (input : str) : option (str * str) :=
  match input with
  | c :: _ =>
      if isAlpha c then
        match span (fun x => isAlnum x || oneOf "+-." x) input with
        | (s, ":"%char :: rest) => Some (map lower s, rest)
        | _ => None
        end
      else None
  | [] => None
  end.

Fixpoint segments (acc : str) (p : str) : list str :=
  match p with
  | [] => [rev acc]
  | c :: p' => if Ascii.eqb c "/"%char then rev acc :: segments [] p' else segments (c :: acc) p'
  end.

Definition isDotSegment (s : str) : bool :=
  match s with
  | ["."%char] | ["."%char; "."%char] => true
  | _ => false
  end.

Definition pathChar (c : ascii) : bool := isAlnum c || oneOf "/-._~!$&'()*+,;=" c.

(** A path of the fragment is kept as it is; the empty path of a URL with
    a host is a single slash. *)
Definition parsePath (p : str) : option str :=
  if forallb pathChar p && negb (existsb isDotSegment (segments [] p))
  then Some (match p with [] => js "/" | _ => p end)
  else None.

Definition hostChar (c : ascii) : bool := isAlnum c || oneOf "-." c.

(** Forbidden host code points that have no other role in an authority. *)
Definition forbiddenHostChar (c : ascii) : bool := oneOf " <>^|" c.

Definition plainLabels (h : str) : bool :=
  let labels := segments [] (map (fun c => if Ascii.eqb c "."%char then "/"%char else c) h) in
  forallb (fun l => match l with c :: _ => true | [] => false end) labels
  && match last labels [] with c :: _ => isAlpha c | [] => false end
  && forallb (fun l => match l with _ :: _ :: "-"%char :: "-"%char :: _ => false | _ => true end) labels.

(** A missing host and a forbidden host code point are failures; the
    host is lower-cased. *)
Definition parseHost (h : str) : option (completion str) :=
  if negb (forallb (fun c => hostChar c || forbiddenHostChar c) h) then None
  else match h with
       | [] => Some Throw
       | _ =>
           if existsb forbiddenHostChar h then Some Throw
           else if plainLabels h then Some (Normal (map lower h))
           else None
       end.

(** After the two slashes: the host up to the next slash, then the path. *)
Definition parseAuthority (sch : str) (r : str) : option (completion t) :=
  match r with
  | "/"%char :: _ => None
  | _ =>
      let (h, p) := span (fun c => negb (Ascii.eqb c "/"%char)) r in
      match parseHost h, parsePath p with
      | Some Throw, _ => if forallb (fun c => pathChar c) p then Some Throw else None
      | Some (Normal h'), Some p' => Some (Normal (mk sch h' p'))
      | _, _ => None
      end
  end.

(** The directory of a path: the path up to and including its last slash. *)
Definition directory (p : str) : str :=
  rev (snd (span (fun c => negb (Ascii.eqb c "/"%char)) (rev p))).

Definition parse (input : str) (base : option t) : option (completion t) :=
  match splitScheme input with
  | Some (sch, rest) =>
      if existsb (fun s => if list_eq_dec ascii_dec sch (js s) then true else false)
           ["http"%string; "https"%string]
      then match rest with
           | "/"%char :: "/"%char :: r => parseAuthority sch r
           | _ => None
           end
      else None
  | None =>
      if negb (forallb (fun c => pathChar c || forbiddenHostChar c) input) then None
      else
        match base with
        | None => Some Throw
        | Some b =>
            match input with
            | [] => Some (Normal b)
            | "/"%char :: "/"%char :: r => parseAuthority (scheme b) r
            | "/"%char :: _ =>
                match parsePath input with
                | Some p => Some (Normal (mk (scheme b) (host b) p))
                | None => None
                end
            | _ =>
                match parsePath (directory (path b) ++ input) with
                | Some p => Some (Normal (mk (scheme b) (host b) p))
                | None => None
                end
            end
        end
  end.

Definition newURL (input : str) (base : option t) : completion t :=
  match parse input base with
  | Some r => r
  | None => Throw
  end.

End UrlModel.

(** A network given by a table from URL to outcome; the world is the list
    of the requests made so far. *)
Definition tablePlatform (site : str -> completion Response) : Platform :=
  {| URL := UrlModel.t;
     newURL := UrlModel.newURL;
     urlToString := UrlModel.serialize;
     World := list str;
     fetch := fun u w => (site u, w ++ [u]) |}.

Definition offline : Platform := tablePlatform (fun _ => Throw).

Definition examplePage : UrlModel.t :=
  UrlModel.mk (js "https") (js "example.com") (js "/dir/page.html").

(** ** Specification vocabulary *)

(** What resolveUrl returns: the serialisation of the resolved URL, or the
    reference itself when the constructor throws. *)
Definition resolved `{Platform} (href : str) (baseUrl : URL) : str :=
  match newURL href (Some baseUrl) with
  | Normal u => urlToString u
  | Throw => href
  end.

(** A string is a valid absolute URL when the constructor accepts it
    without a base. *)
Definition validAbsoluteUrl `{Platform} (s : str) : Prop :=
  exists u, newURL s None = Normal u.


(** The candidate of one manifest entry. *)
Definition manifestCandidate `{Platform} (baseUrl : URL) (icon : ManifestIcon.t)
    : IconCandidate :=
  mkIcon (resolved (ManifestIcon.src icon) baseUrl)
         (fst (parseSizes (ManifestIcon.sizes icon)))
         (snd (parseSizes (ManifestIcon.sizes icon)))
         Manifest 4.

(** The candidates a manifest request contributes, by outcome. *)
Definition manifestContribution `{Platform} (baseUrl : URL) (r : completion Response)
    : list IconCandidate :=
  match r with
  | Throw => []
  | Normal response =>
      if ok response then
        match json response with
        | Throw => []
        | Normal manifest =>
            match icons manifest with
            | None => []
            | Some entries => map (manifestCandidate baseUrl) entries
            end
        end
      else []
  end.

(** The candidate of one matched link tag, if its href is present and not
    empty. *)
Definition linkCandidate `{Platform} (ty : IconType) (prio : Z) (baseUrl : URL) (m : str)
    : list IconCandidate :=
  match extractAttribute m (js "href") with
  | Some (c :: r) =>
      [mkIcon (resolved (c :: r) baseUrl)
              (fst (parseSizes (extractAttribute m (js "sizes"))))
              (snd (parseSizes (extractAttribute m (js "sizes"))))
              ty prio]
  | _ => []
  end.

Definition ogCandidate `{Platform} (baseUrl : URL) (m : str) : list IconCandidate :=
  match extractAttribute m (js "content") with
  | Some (c :: r) => [mkIcon (resolved (c :: r) baseUrl) 1200 630 OgImage 3]
  | _ => []
  end.

(** The candidates of the first three scans, in the order of discovery. *)
Definition directCandidates `{Platform} (html : str) (baseUrl : URL) : list IconCandidate :=
  flat_map (linkCandidate AppleTouchIcon 1 baseUrl) (matchAll true appleIconRegex html)
  ++ flat_map (linkCandidate Favicon 2 baseUrl) (matchAll true faviconRegex html)
  ++ flat_map (ogCandidate baseUrl) (matchAll true ogImageRegex html).

(** The number of candidates of type apple-touch-icon or favicon. *)
Definition countDirect (icons : list IconCandidate) : nat :=
  List.length
    (filter (fun c => IconType_eqb (type c) AppleTouchIcon || IconType_eqb (type c) Favicon)
            icons).


(** A page with an og:image and a manifest link, a page with a favicon and
    a manifest link, and a network that serves the manifest. *)
Definition ogOnlyPage : str :=
  js "<meta property='og:image' content='https://cdn.example.com/banner.png'><link rel='manifest' href='/site.webmanifest'>".

Definition faviconPage : str :=
  js "<link rel='icon' href='/favicon.ico'><link rel='manifest' href='/site.webmanifest'>".

Definition manifestSite : Platform :=
  tablePlatform
    (fun u =>
       if list_eq_dec ascii_dec u (js "https://example.com/site.webmanifest")
       then Normal {| ok := true;
                      json := Normal {| icons := Some [ManifestIcon.mk (js "/icon-512.png")
                                                         (Some (js "512x512")) None] |} |}
       else Throw).

(** The order of the selector: priority ascending, then distance from the
    target size ascending. *)
Definition keyLe (a b : IconCandidate) : Prop :=
  (priority a < priority b)%Z
  \/ (priority a = priority b /\ (distance a <= distance b)%Z).

Definition sameKey (a b : IconCandidate) : bool :=
  (priority a =? priority b)%Z && (distance a =? distance b)%Z.

(** Three candidates in discovery order: a favicon far from the target, an
    apple-touch-icon, a second apple-touch-icon closer to the target. *)
Definition exampleIcons : list IconCandidate :=
  [mkIcon (js "https://example.com/favicon.ico") 16 16 Favicon 2;
   mkIcon (js "https://example.com/apple-57.png") 57 57 AppleTouchIcon 1;
   mkIcon (js "https://example.com/apple-120.png") 120 120 AppleTouchIcon 1].

Definition exampleHeap : heap := fun r => if Nat.eqb r 0 then exampleIcons else [].

(** ** What a pattern matches

    [Matches ignoreCase re m caps]: the text [m] is matched as a whole by
    [re], with the captures [caps].  This is the meaning of a pattern
    without the order in which the matcher tries the alternatives. *)

Fixpoint sameText (ignoreCase : bool) (pattern text : str) : bool :=
  match pattern, text with
  | [], [] => true
  | p :: pattern', c :: text' => sameChar ignoreCase p c && sameText ignoreCase pattern' text'
  | _, _ => false
  end.

Inductive Matches (ignoreCase : bool) : regex -> str -> list str -> Prop :=
| Matches_nil : Matches ignoreCase [] [] []
| Matches_Lit (c x : ascii) (re : regex) (m : str) (caps : list str) :
    sameChar ignoreCase c x = true ->
    Matches ignoreCase re m caps ->
    Matches ignoreCase (Lit c :: re) (x :: m) caps
| Matches_Cls (p : ascii -> bool) (x : ascii) (re : regex) (m : str) (caps : list str) :
    p x = true ->
    Matches ignoreCase re m caps ->
    Matches ignoreCase (Cls p :: re) (x :: m) caps
| Matches_Rep (capture nonEmpty : bool) (p : ascii -> bool) (run : str) (re : regex)
    (m : str) (caps : list str) :
    forallb p run = true ->
    (nonEmpty = true -> run <> []) ->
    Matches ignoreCase re m caps ->
    Matches ignoreCase (Rep capture nonEmpty p :: re) (run ++ m)
            (if capture then run :: caps else caps).

(** An attribute at the start of [t], as the pattern of extractAttribute
    reads it: the name in any letter case, an equals sign, a quote
    character, the value [v] without quote characters, a quote character,
    then [rest].  The two quote characters need not be the same. *)
Definition attributeAt (name t v rest : str) : Prop :=
  exists n q1 q2,
    t = n ++ "="%char :: q1 :: v ++ q2 :: rest
    /\ sameText true name n = true
    /\ isQuote q1 = true /\ isQuote q2 = true
    /\ forallb notQuote v = true.

(** The rule of the attribute extractor in the words of the specification,
    where the closing quote is of the same kind as the opening quote: the
    value runs up to the next occurrence of the opening quote character. *)
Fixpoint upTo (q : ascii) (s : str) : option str :=
  match s with
  | [] => None
  | c :: s' => if Ascii.eqb c q then Some [] else option_map (cons c) (upTo q s')
  end.

Fixpoint afterName (name t : str) : option str :=
  match name, t with
  | [], _ => Some t
  | p :: name', c :: t' => if sameChar true p c then afterName name' t' else None
  | _ :: _, [] => None
  end.

Definition sameQuoteValueAt (name t : str) : option str :=
  match afterName name t with
  | Some ("="%char :: q :: r) => if isQuote q then upTo q r else None
  | _ => None
  end.

Fixpoint sameQuoteValue (name html : str) : option str :=
  match sameQuoteValueAt name html with
  | Some v => Some v
  | None =>
      match html with
      | [] => None
      | _ :: html' => sameQuoteValue name html'
      end
  end.

(** A tag whose href value, in single quotes, contains a double quote. *)
Definition mixedQuoteTag : str := js "<a href='it" ++ dquote :: js "s.png'>".

(** A size pair at the start of [t], as the first pattern of parseSizes
    reads it: a run of digits [d1] that is not empty, a lower-case x, a run
    of digits [d2] that is not empty and goes on as far as digits go, then
    [rest]. *)
Definition sizePairAt (t d1 d2 rest : str) : Prop :=
  t = d1 ++ "x"%char :: d2 ++ rest
  /\ d1 <> [] /\ forallb isDigit d1 = true
  /\ d2 <> [] /\ forallb isDigit d2 = true
  /\ match rest with c :: _ => isDigit c = false | [] => True end.

(** [startsWith ignoreCase pattern text]: the text begins with the
    characters of the pattern. *)
Fixpoint startsWith (ignoreCase : bool) (pattern text : str) : bool :=
  match pattern, text with
  | [], _ => true
  | p :: pattern', c :: text' => sameChar ignoreCase p c && startsWith ignoreCase pattern' text'
  | _ :: _, [] => false
  end.

(** The text after the last quote character (the whole text when it has
    none). *)
Fixpoint afterLastQuote (s : str) : str :=
  match s with
  | [] => []
  | c :: s' =>
      if forallb notQuote s' then (if isQuote c then s' else c :: s')
      else afterLastQuote s'
  end.

Definition notLt (c : ascii) : bool := negb (Ascii.eqb c "<"%char).

(** A link tag whose rel value begins with apple-touch-icon, as the
    pattern of the scan reads it: the text <link, anything but a closing
    bracket, rel=, a quote character, apple-touch-icon (all three in any
    letter case), a rest [v] of the value without quote characters, a quote
    character, anything but a closing bracket, the closing bracket. *)
Definition appleLinkTag (tag : str) : Prop :=
  exists lt a rel q1 apple v q2 b,
    tag = lt ++ a ++ rel ++ q1 :: apple ++ v ++ q2 :: b ++ [">"%char]
    /\ sameText true (js "<link") lt = true
    /\ forallb notGt a = true
    /\ sameText true (js "rel=") rel = true
    /\ isQuote q1 = true
    /\ sameText true (js "apple-touch-icon") apple = true
    /\ forallb notQuote v = true
    /\ isQuote q2 = true
    /\ forallb notGt b = true.

(** A tag with one closing bracket, at its end, which does not end in an
    open quote followed by apple-touch-icon. *)
Definition closedTag (tag : str) : Prop :=
  exists body,
    tag = body ++ [">"%char]
    /\ forallb notGt body = true
    /\ startsWith true (js "apple-touch-icon") (afterLastQuote body) = false.

(** A link tag with the longer rel token apple-touch-icon-precomposed, and
    one where another token comes first in the rel value. *)
Definition precomposedTag : str :=
  js "<link rel='apple-touch-icon-precomposed' sizes='180x180' href='/apple.png'>".

Definition shortcutAppleTag : str :=
  js "<link rel='shortcut apple-touch-icon' href='/a.png'>".

(** ** The request handler (main.ts 19-91)

    The page request is fetch with the Accept and User-Agent headers; the
    handler reads ok, status and text() of its response. *)

Module PageResponse.
Record t : Type := mk { ok : bool; status : Z; text : completion str }.
End PageResponse.

Class Service : Type := {
  servicePlatform :: Platform;
  fetchPage : str -> World -> completion PageResponse.t * World
}.

Module Worker.

(** What the handler answers: one of the four responses it builds, or the
    response of the icon request as it is. *)
Inductive Reply : Type :=
| Usage                                      (* 400, the usage text *)
| FailedToFetch (target : str) (status : Z)  (* 502, names the page and its status *)
| NoIconsFound                               (* 404 *)
| InternalError                              (* 500, the message of the exception *)
| Forwarded (response : Response).

Definition statusCode (r : Reply) : option Z :=
  match r with
  | Usage => Some 400%Z
  | FailedToFetch _ _ => Some 502%Z
  | NoIconsFound => Some 404%Z
  | InternalError => Some 500%Z
  | Forwarded _ => None
  end.

(** Lines 30-32. *)
Definition normalizeUrl (targetUrl : str) : str :=
  if startsWith false (js "http") targetUrl then targetUrl
  else js "https://" ++ targetUrl.

(** Lines 28-81, the try block.  Its last statement returns the promise of
    the icon request without await: the block is left with the url
    ([inr]), and the request is made outside of it. *)
Definition tryBlock `{Service} (targetUrl : str) : M (Reply + str) :=
  let normalizedUrl := normalizeUrl targetUrl in
  parsedUrl <- liftC (newURL normalizedUrl None) ;;
  response <- fetchPage (urlToString parsedUrl) ;;
  if negb (PageResponse.ok response)
  then ret (inl (FailedToFetch (urlToString parsedUrl) (PageResponse.status response)))
  else
    html <- liftC (PageResponse.text response) ;;
    icons <- extractIcons html parsedUrl ;;
    if List.length icons =? 0 then ret (inl NoIconsFound)
    else
      match fst (findBestIcon 0 (update (fun _ => []) 0 icons)) with
      | Some bestIcon => ret (inr (url bestIcon))
      | None => liftC Throw
      end.

(** The handler, given the pathname of the request URL. *)
Definition fetch `{Service} (pathname : str) : M Reply :=
  let targetUrl := tl pathname in
  match targetUrl with
  | [] => ret Usage
  | _ =>
      r <- tryCatch (tryBlock targetUrl) (ret (inl InternalError)) ;;
      match r with
      | inl reply => ret reply
      | inr iconUrl => response <- fetch iconUrl ;; ret (Forwarded response)
      end
  end.

End Worker.

(** A service given by two tables, for the pages and for the other
    requests. *)
Definition tableService (pages : str -> completion PageResponse.t)
    (site : str -> completion Response) : Service :=
  {| servicePlatform := tablePlatform site;
     fetchPage := fun u w => (pages u, w ++ [u]) |}.

Definition iconResponse : Response := {| ok := true; json := Throw |}.

(** A site whose front page declares a favicon and an apple-touch-icon. *)
Definition exampleService : Service :=
  tableService
    (fun u =>
       if list_eq_dec ascii_dec u (js "https://example.com/")
       then Normal (PageResponse.mk true 200
                      (Normal (js "<link rel='icon' href='/favicon.ico'><link rel='apple-touch-icon' href='/apple.png'>")))
       else if list_eq_dec ascii_dec u (js "https://example.com/missing")
       then Normal (PageResponse.mk false 404 (Normal []))
       else Throw)
    (fun u =>
       if list_eq_dec ascii_dec u (js "https://example.com/apple.png")
       then Normal iconResponse
       else Throw).

(** The order of the tiers alone. *)
Definition tierLe (a b : IconCandidate) : Prop := (priority a <= priority b)%Z.

Definition notDigit (c : ascii) : bool := negb (isDigit c).

(** The shape of the favicon, og:image and manifest patterns: the opening
    text, anything but a closing bracket, the attribute with its equals
    sign, a quote character, the value and nothing else, a quote
    character, anything but a closing bracket, the closing bracket. *)
Definition exactValueRegex (opening attribute value : string) : regex :=
  lits opening ++ [Rep false false notGt] ++ lits attribute ++ [Cls isQuote]
  ++ lits value ++ [Cls isQuote; Rep false false notGt] ++ lits ">".

Definition exactValueTag (opening attribute value : string) (tag : str) : Prop :=
  exists o a at' q1 val q2 b,
    tag = o ++ a ++ at' ++ q1 :: val ++ q2 :: b ++ [">"%char]
    /\ sameText true (js opening) o = true
    /\ forallb notGt a = true
    /\ sameText true (js attribute) at' = true
    /\ isQuote q1 = true
    /\ sameText true (js value) val = true
    /\ isQuote q2 = true
    /\ forallb notGt b = true.





(** ** The arithmetic of the code

    Every number of the code is a double.  On integers of magnitude at
    most 2^53 the operations of the selector (difference, absolute value,
    sum) are exact as long as their results stay in that range, and there
    [compareIcons] and [distance] are what the code computes. *)
Definition exactInteger (z : Z) : Prop := (Z.abs z <= 2 ^ 53)%Z.

Definition exactNumbers (c : IconCandidate) : Prop :=
  exactInteger (width c) /\ exactInteger (height c)
  /\ (Z.abs (priority c) <= 2 ^ 52)%Z
  /\ (distance c <= 2 ^ 53)%Z.

(** The same comparison in doubles (binary64: precision 53, maximal
    exponent 1024), with the rounding of each operation. *)
Definition double : Type := spec_float.

Definition toDouble (z : Z) : double := binary_normalize 53 1024 z 0 false.

Definition distanceDouble (a : IconCandidate) : double :=
  SFadd 53 1024
    (SFabs (SFsub 53 1024 (toDouble (width a)) (toDouble TARGET_SIZE)))
    (SFabs (SFsub 53 1024 (toDouble (height a)) (toDouble TARGET_SIZE))).

Definition compareIconsDouble (a b : IconCandidate) : double :=
  if negb (SFeqb (toDouble (priority a)) (toDouble (priority b)))
  then SFsub 53 1024 (toDouble (priority a)) (toDouble (priority b))
  else SFsub 53 1024 (distanceDouble a) (distanceDouble b).

(** Array.prototype.sort reads the sign of the comparison, and a NaN as
    zero. *)
Definition signOf (v : double) : Z :=
  match SFcompare v (S754_zero false) with
  | Some Lt => (-1)%Z
  | Some Gt => 1%Z
  | _ => 0%Z
  end.

Definition findBestIconDouble (icons : ref) (h : heap) : option IconCandidate * heap :=
  let sorted := sort (fun a b => signOf (compareIconsDouble a b)) (h icons) in
  (hd_error sorted, update h icons sorted).

(** Two candidates of one priority whose distances, 2^53 + 1 and 2^53,
    are the same double. *)
Definition tieFirst : IconCandidate :=
  mkIcon (js "https://example.com/first.png") 9007199254741092 101 Favicon 2.

Definition tieSecond : IconCandidate :=
  mkIcon (js "https://example.com/second.png") 9007199254741092 100 Favicon 2.

Definition tieIcons : list IconCandidate := [tieFirst; tieSecond].

(** * Theorems *)

(** ** The model at work *)

Example parseSizes_180 : parseSizes (Some (js "180x180")) = (180, 180)%Z.
Proof. reflexivity. Qed.

Example parseSizes_upper : parseSizes (Some (js "16X32")) = (16, 16)%Z.
Proof. reflexivity. Qed.

Example extractAttribute_href :
  extractAttribute (js "<link rel='icon' HREF='/a.png'>") (js "href") = Some (js "/a.png").
Proof. reflexivity. Qed.

Example resolve_absolute_path :
  @resolveUrl offline (js "/icons/a.png") examplePage
  = Normal (js "https://example.com/icons/a.png").
Proof. reflexivity. Qed.

Example resolve_relative_path :
  @resolveUrl offline (js "a.png") examplePage
  = Normal (js "https://example.com/dir/a.png").
Proof. reflexivity. Qed.

Example resolve_bare_host :
  @resolveUrl offline (js "HTTPS://Example.COM") examplePage
  = Normal (js "https://example.com/").
Proof. reflexivity. Qed.

Example resolve_bad_host :
  UrlModel.parse (js "https://a b/i.png") (Some examplePage) = Some Throw.
Proof. reflexivity. Qed.

Example extract_two_links :
  fst (@extractIcons offline
         (js "<link rel='apple-touch-icon' sizes='180x180' href='/apple.png'><link rel='icon' sizes='32x32' href='/favicon.ico'>")
         examplePage [])
  = Normal [mkIcon (js "https://example.com/apple.png") 180 180 AppleTouchIcon 1;
            mkIcon (js "https://example.com/favicon.ico") 32 32 Favicon 2].
Proof. vm_compute. reflexivity. Qed.


(** ** The URL resolver *)

Lemma resolveUrl_resolved `{Platform} (href : str) (baseUrl : URL) :
  resolveUrl href baseUrl = Normal (resolved href baseUrl).
Proof.
  unfold resolveUrl, resolved.
  destruct (newURL href (Some baseUrl)); reflexivity.
Qed.

(** C5. The URL resolver never raises, and when the URL constructor fails
    to parse the reference against the base, it returns the reference
    string unchanged. *)
Theorem resolveUrl_soft_fail `{Platform} (href : str) (baseUrl : URL) :
  resolveUrl href baseUrl <> Throw
  /\ (newURL href (Some baseUrl) = Throw -> resolveUrl href baseUrl = Normal href).
Proof.
  rewrite resolveUrl_resolved. split.
  - discriminate.
  - intros E. unfold resolved. rewrite E. reflexivity.
Qed.

Lemma resolveUrl_soft_fail_witness :
  @newURL offline (js "https://a b/i.png") (Some examplePage) = Throw
  /\ @resolveUrl offline (js "https://a b/i.png") examplePage
     = Normal (js "https://a b/i.png").
Proof.
  split.
  - reflexivity.
  - apply (@resolveUrl_soft_fail offline (js "https://a b/i.png") examplePage).
    reflexivity.
Defined.

(** C6, as stated, fails: an absolute reference that is not written in
    serialised form comes back normalised.  The bare origin below is
    accepted without a base (it is absolute) and gains a trailing slash. *)
Lemma resolveUrl_absolute_not_identity :
  UrlModel.parse (js "https://example.com") None
    = Some (Normal (UrlModel.mk (js "https") (js "example.com") (js "/")))
  /\ @validAbsoluteUrl offline (js "https://example.com")
  /\ @resolveUrl offline (js "https://example.com") examplePage
     = Normal (js "https://example.com/")
  /\ @resolveUrl offline (js "https://example.com") examplePage
     <> Normal (js "https://example.com").
Proof.
  split; [reflexivity|]. split; [eexists; reflexivity|].
  split; [reflexivity|]. discriminate.
Qed.

(** In the URL model a reference accepted without a base is resolved
    without consulting the base. *)
Lemma UrlModel_absolute_ignores_base (href : str) (base : UrlModel.t) (u : UrlModel.t) :
  UrlModel.newURL href None = Normal u -> UrlModel.newURL href (Some base) = Normal u.
Proof.
  unfold UrlModel.newURL, UrlModel.parse.
  destruct (UrlModel.splitScheme href) as [[sch rest]|]; [auto|].
  destruct (negb (forallb (fun c => UrlModel.pathChar c || UrlModel.forbiddenHostChar c) href));
    discriminate.
Qed.

(** C6, amended. For a reference that is an absolute URL (the constructor
    accepts it without a base, and resolves it without consulting the
    base) and every base, the resolver returns the serialisation of the
    reference parsed on its own: the same string for every base, and the
    reference unchanged exactly when the reference is already that
    serialisation. *)
Theorem resolveUrl_serialises `{Platform} (href : str) (u : URL) :
  newURL href None = Normal u ->
  (forall baseUrl, newURL href (Some baseUrl) = newURL href None) ->
  forall baseUrl,
    resolveUrl href baseUrl = Normal (urlToString u)
    /\ (resolveUrl href baseUrl = Normal href <-> urlToString u = href).
Proof.
  intros Eu Hbase baseUrl. rewrite resolveUrl_resolved. unfold resolved.
  rewrite Hbase, Eu.
  split; [reflexivity|].
  split; intros E'; [injection E' as E'; exact E' | rewrite E'; reflexivity].
Qed.

Lemma resolveUrl_serialises_witness :
  @resolveUrl offline (js "https://Example.com/a.png") examplePage
  = Normal (js "https://example.com/a.png").
Proof.
  refine (proj1 (@resolveUrl_serialises offline (js "https://Example.com/a.png")
                   (UrlModel.mk (js "https") (js "example.com") (js "/a.png"))
                   eq_refl _ examplePage)).
  intros baseUrl.
  exact (eq_trans
           (UrlModel_absolute_ignores_base (js "https://Example.com/a.png") baseUrl
              (UrlModel.mk (js "https") (js "example.com") (js "/a.png")) eq_refl)
           eq_refl).
Defined.

(** ** The monad *)

Lemma bind_run `{Platform} {A B : Type} (m : M A) (f : A -> M B) (w : World) :
  bind m f w
  = match m w with
    | (Normal a, w') => f a w'
    | (Throw, w') => (Throw, w')
    end.
Proof. reflexivity. Qed.

Lemma ret_run `{Platform} {A : Type} (a : A) (w : World) : ret a w = (Normal a, w).
Proof. reflexivity. Qed.

Lemma liftC_run `{Platform} {A : Type} (c : completion A) (w : World) :
  liftC c w = (c, w).
Proof. reflexivity. Qed.

Lemma forEach_app `{Platform} {A S : Type} (xs ys : list A) (body : A -> S -> M S)
    (s : S) (w : World) :
  forEach (xs ++ ys) body s w
  = match forEach xs body s w with
    | (Normal s', w') => forEach ys body s' w'
    | (Throw, w') => (Throw, w')
    end.
Proof.
  revert s w. induction xs as [|x xs IH]; intros s w; simpl.
  - reflexivity.
  - unfold bind. destruct (body x s w) as [[s'|] w']; [apply IH | reflexivity].
Qed.

(** A loop whose body appends a list that depends on the element only, and
    leaves the world alone. *)
Lemma forEach_pure `{Platform} {A B : Type} (f : A -> list B) (xs : list A)
    (body : A -> list B -> M (list B)) :
  (forall x acc w, body x acc w = (Normal (acc ++ f x), w)) ->
  forall acc w, forEach xs body acc w = (Normal (acc ++ flat_map f xs), w).
Proof.
  intros Hbody. induction xs as [|x xs IH]; intros acc w; simpl.
  - rewrite app_nil_r. reflexivity.
  - unfold bind. rewrite Hbody, IH, <- app_assoc. reflexivity.
Qed.

Lemma flat_map_singleton {A B : Type} (f : A -> B) (l : list A) :
  flat_map (fun x => [f x]) l = map f l.
Proof. induction l as [|x l IH]; simpl; congruence. Qed.

(** ** The manifest sub-routine *)

Lemma manifest_loop `{Platform} (baseUrl : URL) (entries : list ManifestIcon.t)
    (acc : list IconCandidate) (w : World) :
  forEach entries
    (fun icon icons =>
       iconUrl <- liftC (resolveUrl (ManifestIcon.src icon) baseUrl) ;;
       let '(width, height) := parseSizes (ManifestIcon.sizes icon) in
       ret (icons ++ [mkIcon iconUrl width height Manifest 4]))
    acc w
  = (Normal (acc ++ map (manifestCandidate baseUrl) entries), w).
Proof.
  rewrite (forEach_pure (fun icon => [manifestCandidate baseUrl icon])).
  - rewrite flat_map_singleton. reflexivity.
  - intros icon icons w0. unfold bind, liftC, ret, manifestCandidate.
    rewrite resolveUrl_resolved.
    destruct (parseSizes (ManifestIcon.sizes icon)); reflexivity.
Qed.

Lemma fetchManifestIcons_spec `{Platform} (manifestUrl : str) (baseUrl : URL) (w : World) :
  fetchManifestIcons manifestUrl baseUrl w
  = (Normal (manifestContribution baseUrl (fst (fetch manifestUrl w))),
     snd (fetch manifestUrl w)).
Proof.
  unfold fetchManifestIcons, tryCatch, manifestContribution.
  rewrite bind_run.
  destruct (fetch manifestUrl w) as [[response|] w']; cbn [fst snd]; [|reflexivity].
  destruct (ok response); cbn [negb]; [|reflexivity].
  rewrite bind_run, liftC_run.
  destruct (json response) as [manifest|]; [|reflexivity].
  destruct (icons manifest) as [entries|]; [|reflexivity].
  rewrite manifest_loop. reflexivity.
Qed.

(** ** The scans *)




Lemma link_loop `{Platform} (ty : IconType) (prio : Z) (baseUrl : URL) (matches : list str)
    (acc : list IconCandidate) (w : World) :
  forEach matches
    (fun m icons =>
       let href := extractAttribute m (js "href") in
       let sizes := extractAttribute m (js "sizes") in
       match href with
       | Some (c :: r) =>
           iconUrl <- liftC (resolveUrl (c :: r) baseUrl) ;;
           let '(width, height) := parseSizes sizes in
           ret (icons ++ [mkIcon iconUrl width height ty prio])
       | _ => ret icons
       end)
    acc w
  = (Normal (acc ++ flat_map (linkCandidate ty prio baseUrl) matches), w).
Proof.
  apply (forEach_pure (linkCandidate ty prio baseUrl)).
  intros m icons w0. unfold linkCandidate. cbv zeta.
  destruct (extractAttribute m (js "href")) as [[|c r]|].
  - unfold ret. rewrite app_nil_r. reflexivity.
  - rewrite bind_run, liftC_run, resolveUrl_resolved.
    destruct (parseSizes (extractAttribute m (js "sizes"))); reflexivity.
  - unfold ret. rewrite app_nil_r. reflexivity.
Qed.

Lemma appleScan_spec `{Platform} (html : str) (baseUrl : URL) (acc : list IconCandidate)
    (w : World) :
  appleScan html baseUrl acc w
  = (Normal (acc ++ flat_map (linkCandidate AppleTouchIcon 1 baseUrl)
                             (matchAll true appleIconRegex html)), w).
Proof. apply link_loop. Qed.

Lemma faviconScan_spec `{Platform} (html : str) (baseUrl : URL) (acc : list IconCandidate)
    (w : World) :
  faviconScan html baseUrl acc w
  = (Normal (acc ++ flat_map (linkCandidate Favicon 2 baseUrl)
                             (matchAll true faviconRegex html)), w).
Proof. apply link_loop. Qed.

Lemma ogScan_spec `{Platform} (html : str) (baseUrl : URL) (acc : list IconCandidate)
    (w : World) :
  ogScan html baseUrl acc w
  = (Normal (acc ++ flat_map (ogCandidate baseUrl) (matchAll true ogImageRegex html)), w).
Proof.
  apply (forEach_pure (ogCandidate baseUrl)).
  intros m icons w0. unfold ogCandidate. cbv zeta.
  destruct (extractAttribute m (js "content")) as [[|c r]|].
  - unfold ret. rewrite app_nil_r. reflexivity.
  - rewrite bind_run, liftC_run, resolveUrl_resolved. reflexivity.
  - unfold ret. rewrite app_nil_r. reflexivity.
Qed.

Lemma directScan_spec `{Platform} (html : str) (baseUrl : URL) (w : World) :
  directScan html baseUrl w = (Normal (directCandidates html baseUrl), w).
Proof.
  unfold directScan, directCandidates.
  rewrite bind_run, appleScan_spec, bind_run, faviconScan_spec, ogScan_spec.
  rewrite <- app_assoc. reflexivity.
Qed.

(** The manifest loop returns normally and only appends manifest entries. *)
Lemma manifest_matches_loop `{Platform} (baseUrl : URL) (matches : list str) :
  forall (acc : list IconCandidate) (w : World),
  exists extra w',
    forEach matches
      (fun m icons =>
         let href := extractAttribute m (js "href") in
         match href with
         | Some (c :: r) =>
             manifestUrl <- liftC (resolveUrl (c :: r) baseUrl) ;;
             manifestIcons <- fetchManifestIcons manifestUrl baseUrl ;;
             ret (icons ++ manifestIcons)
         | _ => ret icons
         end)
      acc w
    = (Normal (acc ++ extra), w')
    /\ Forall (fun c => exists icon, c = manifestCandidate baseUrl icon) extra.
Proof.
  induction matches as [|m matches IH]; intros acc w.
  - exists [], w. rewrite app_nil_r. split; [reflexivity | constructor].
  - cbn [forEach]. rewrite bind_run. cbv zeta.
    destruct (extractAttribute m (js "href")) as [[|c r]|].
    + rewrite ret_run. apply IH.
    + rewrite bind_run, liftC_run, resolveUrl_resolved. cbv beta iota.
      rewrite bind_run, fetchManifestIcons_spec. cbv beta iota.
      rewrite ret_run.
      destruct (IH (acc ++ manifestContribution baseUrl
                            (fst (fetch (resolved (c :: r) baseUrl) w)))
                   (snd (fetch (resolved (c :: r) baseUrl) w)))
        as (extra & w' & E & F).
      exists (manifestContribution baseUrl (fst (fetch (resolved (c :: r) baseUrl) w))
              ++ extra), w'.
      rewrite <- app_assoc in E. split; [exact E|].
      apply Forall_app. split; [|exact F].
      unfold manifestContribution.
      destruct (fst (fetch (resolved (c :: r) baseUrl) w)) as [response|];
        [|constructor].
      destruct (ok response); [|constructor].
      destruct (json response) as [manifest|]; [|constructor].
      destruct (icons manifest) as [entries|]; [|constructor].
      apply Forall_forall. intros x Hx. apply in_map_iff in Hx.
      destruct Hx as (icon & <- & _). exists icon. reflexivity.
    + rewrite ret_run. apply IH.
Qed.

Lemma manifestScan_spec `{Platform} (html : str) (baseUrl : URL) (acc : list IconCandidate)
    (w : World) :
  exists extra w',
    manifestScan html baseUrl acc w = (Normal (acc ++ extra), w')
    /\ Forall (fun c => exists icon, c = manifestCandidate baseUrl icon) extra.
Proof. apply manifest_matches_loop. Qed.

Lemma extractIcons_spec `{Platform} (html : str) (baseUrl : URL) (w : World) :
  extractIcons html baseUrl w
  = if noDirectIcons (directCandidates html baseUrl)
    then manifestScan html baseUrl (directCandidates html baseUrl) w
    else (Normal (directCandidates html baseUrl), w).
Proof.
  unfold extractIcons. rewrite bind_run, directScan_spec.
  destruct (noDirectIcons (directCandidates html baseUrl)); reflexivity.
Qed.

Lemma extractIcons_returns `{Platform} (html : str) (baseUrl : URL) (w : World) :
  exists icons w', extractIcons html baseUrl w = (Normal icons, w').
Proof.
  rewrite extractIcons_spec.
  destruct (noDirectIcons (directCandidates html baseUrl)).
  - destruct (manifestScan_spec html baseUrl (directCandidates html baseUrl) w)
      as (extra & w' & E & _).
    rewrite E. eauto.
  - eauto.
Qed.

(** C7. Whatever the manifest request does, the sub-routine returns
    normally: nothing on a network error, a status that is not a success or
    a body that is not JSON; on success one candidate per entry of the icon
    array, of type manifest and priority 4, with the src resolved against
    the base URL of the page and the sizes read by parseSizes.  The
    extraction as a whole never raises. *)
Theorem fetchManifestIcons_total `{Platform} (manifestUrl : str) (baseUrl : URL) (w : World) :
  fetchManifestIcons manifestUrl baseUrl w
  = (Normal
       match fst (fetch manifestUrl w) with
       | Throw => []
       | Normal response =>
           if ok response then
             match json response with
             | Throw => []
             | Normal manifest =>
                 match icons manifest with
                 | None => []
                 | Some entries =>
                     map (fun icon =>
                            mkIcon (resolved (ManifestIcon.src icon) baseUrl)
                                   (fst (parseSizes (ManifestIcon.sizes icon)))
                                   (snd (parseSizes (ManifestIcon.sizes icon)))
                                   Manifest 4)
                         entries
                 end
             end
           else []
       end,
     snd (fetch manifestUrl w))
  /\ forall html, exists icons w', extractIcons html baseUrl w = (Normal icons, w').
Proof.
  split.
  - apply fetchManifestIcons_spec.
  - intros html. apply extractIcons_returns.
Qed.

(** ** The guard of the manifest scan *)

Lemma linkCandidate_In `{Platform} (ty : IconType) (prio : Z) (baseUrl : URL)
    (matches : list str) (c : IconCandidate) :
  In c (flat_map (linkCandidate ty prio baseUrl) matches) ->
  exists href sizes,
    c = mkIcon (resolved href baseUrl) (fst (parseSizes sizes)) (snd (parseSizes sizes))
               ty prio.
Proof.
  intros Hin. apply in_flat_map in Hin. destruct Hin as (m & _ & Hin).
  unfold linkCandidate in Hin.
  destruct (extractAttribute m (js "href")) as [[|a r]|]; try contradiction.
  destruct Hin as [<-|[]]. eauto.
Qed.

Lemma ogCandidate_In `{Platform} (baseUrl : URL) (matches : list str) (c : IconCandidate) :
  In c (flat_map (ogCandidate baseUrl) matches) ->
  exists href, c = mkIcon (resolved href baseUrl) 1200 630 OgImage 3.
Proof.
  intros Hin. apply in_flat_map in Hin. destruct Hin as (m & _ & Hin).
  unfold ogCandidate in Hin.
  destruct (extractAttribute m (js "content")) as [[|a r]|]; try contradiction.
  destruct Hin as [<-|[]]. eauto.
Qed.

Lemma directCandidates_In `{Platform} (html : str) (baseUrl : URL) (c : IconCandidate) :
  In c (directCandidates html baseUrl) ->
  (exists href sizes,
     c = mkIcon (resolved href baseUrl) (fst (parseSizes sizes)) (snd (parseSizes sizes))
                AppleTouchIcon 1)
  \/ (exists href sizes,
        c = mkIcon (resolved href baseUrl) (fst (parseSizes sizes)) (snd (parseSizes sizes))
                   Favicon 2)
  \/ (exists href, c = mkIcon (resolved href baseUrl) 1200 630 OgImage 3).
Proof.
  unfold directCandidates. intros Hin.
  apply in_app_or in Hin. destruct Hin as [Hin|Hin].
  - left. eapply linkCandidate_In, Hin.
  - apply in_app_or in Hin. destruct Hin as [Hin|Hin].
    + right; left. eapply linkCandidate_In, Hin.
    + right; right. eapply ogCandidate_In, Hin.
Qed.

Lemma filter_ext_in_length {A : Type} (f g : A -> bool) (l : list A) :
  (forall x, In x l -> f x = g x) ->
  List.length (filter f l) = List.length (filter g l).
Proof.
  intros E. rewrite (filter_ext_in f g l E). reflexivity.
Qed.

Lemma noDirectIcons_countDirect `{Platform} (html : str) (baseUrl : URL) :
  noDirectIcons (directCandidates html baseUrl)
  = (countDirect (directCandidates html baseUrl) =? 0).
Proof.
  unfold noDirectIcons, countDirect. f_equal.
  apply filter_ext_in_length. intros c Hin.
  apply directCandidates_In in Hin.
  destruct Hin as [(h & s & ->)|[(h & s & ->)|(h & ->)]]; reflexivity.
Qed.

(** C2. After the apple-touch-icon, favicon and og-image scans, which do
    not touch the network, the manifest scan runs exactly when the list has
    no candidate of type apple-touch-icon or favicon: then the extraction
    is the manifest scan continued from that list (og-image candidates do
    not prevent it), otherwise the extraction returns the list as it is. *)
Theorem manifest_scan_guard `{Platform} (html : str) (baseUrl : URL) (w : World) :
  exists icons,
    directScan html baseUrl w = (Normal icons, w)
    /\ extractIcons html baseUrl w
       = if countDirect icons =? 0
         then manifestScan html baseUrl icons w
         else (Normal icons, w).
Proof.
  exists (directCandidates html baseUrl). split.
  - apply directScan_spec.
  - rewrite extractIcons_spec, noDirectIcons_countDirect. reflexivity.
Qed.

Example ogOnlyPage_fetches_manifest :
  @extractIcons manifestSite ogOnlyPage examplePage []
  = (Normal [mkIcon (js "https://cdn.example.com/banner.png") 1200 630 OgImage 3;
             mkIcon (js "https://example.com/icon-512.png") 512 512 Manifest 4],
     [js "https://example.com/site.webmanifest"]).
Proof. vm_compute. reflexivity. Qed.

Example faviconPage_skips_manifest :
  @extractIcons manifestSite faviconPage examplePage []
  = (Normal [mkIcon (js "https://example.com/favicon.ico") 32 32 Favicon 2], []).
Proof. vm_compute. reflexivity. Qed.

(** ** The invariant of the candidates *)






(** ** The selector *)

Lemma compareIcons_le (a b : IconCandidate) :
  (compareIcons a b <= 0)%Z <-> keyLe a b.
Proof.
  unfold compareIcons, keyLe.
  destruct (priority a =? priority b)%Z eqn:E; cbn [negb].
  - apply Z.eqb_eq in E. lia.
  - apply Z.eqb_neq in E. lia.
Qed.

Lemma keyLe_refl (a : IconCandidate) : keyLe a a.
Proof. unfold keyLe. lia. Qed.

Lemma keyLe_trans (a b c : IconCandidate) : keyLe a b -> keyLe b c -> keyLe a c.
Proof. unfold keyLe. lia. Qed.

Lemma keyLe_total (a b : IconCandidate) : keyLe a b \/ keyLe b a.
Proof. unfold keyLe. lia. Qed.

Lemma keyLe_antisym (a b : IconCandidate) : keyLe a b -> keyLe b a -> sameKey a b = true.
Proof.
  unfold keyLe, sameKey. intros Hab Hba.
  apply andb_true_intro. split; apply Z.eqb_eq; lia.
Qed.

Lemma sameKey_le (a b : IconCandidate) : sameKey a b = true -> keyLe a b.
Proof.
  unfold sameKey, keyLe. intros E. apply andb_prop in E. destruct E as [E1 E2].
  apply Z.eqb_eq in E1. apply Z.eqb_eq in E2. lia.
Qed.

Lemma sameKey_refl (a : IconCandidate) : sameKey a a = true.
Proof. unfold sameKey. rewrite !Z.eqb_refl. reflexivity. Qed.

Lemma insert_Permutation (x : IconCandidate) (l : list IconCandidate) :
  Permutation (x :: l) (insert compareIcons x l).
Proof.
  induction l as [|y l IH]; simpl.
  - apply Permutation_refl.
  - destruct (compareIcons x y <=? 0)%Z.
    + apply Permutation_refl.
    + eapply perm_trans; [apply perm_swap|]. apply perm_skip, IH.
Qed.

Lemma sort_Permutation (l : list IconCandidate) : Permutation l (sort compareIcons l).
Proof.
  induction l as [|x l IH]; simpl.
  - constructor.
  - eapply perm_trans; [apply perm_skip, IH | apply insert_Permutation].
Qed.

Lemma insert_sorted (x : IconCandidate) (l : list IconCandidate) :
  StronglySorted keyLe l -> StronglySorted keyLe (insert compareIcons x l).
Proof.
  induction 1 as [|y l Hs IH Hy]; simpl.
  - repeat constructor.
  - destruct (compareIcons x y <=? 0)%Z eqn:E.
    + apply Z.leb_le, compareIcons_le in E.
      constructor; [constructor; assumption|].
      constructor; [exact E|].
      eapply Forall_impl; [|exact Hy]. intros c Hc. eapply keyLe_trans; eassumption.
    + apply Z.leb_gt in E.
      assert (Hyx : keyLe y x).
      { destruct (keyLe_total x y) as [Hxy|Hyx]; [|exact Hyx].
        apply compareIcons_le in Hxy. lia. }
      constructor; [exact IH|].
      apply Forall_forall. intros c Hc.
      apply (Permutation_in _ (Permutation_sym (insert_Permutation x l))) in Hc.
      destruct Hc as [<-|Hc]; [exact Hyx|].
      rewrite Forall_forall in Hy. apply Hy, Hc.
Qed.

Lemma sort_sorted (l : list IconCandidate) : StronglySorted keyLe (sort compareIcons l).
Proof.
  induction l as [|x l IH]; simpl.
  - constructor.
  - apply insert_sorted, IH.
Qed.

(** Insertion keeps the order among candidates of one key: the sort is
    stable. *)
Lemma insert_stable (k x : IconCandidate) (l : list IconCandidate) :
  filter (sameKey k) (insert compareIcons x l) = filter (sameKey k) (x :: l).
Proof.
  induction l as [|y l IH]; [reflexivity|].
  cbn [insert]. destruct (compareIcons x y <=? 0)%Z eqn:E; [reflexivity|].
  apply Z.leb_gt in E.
  cbn [filter] in *. rewrite IH.
  destruct (sameKey k x) eqn:Ex, (sameKey k y) eqn:Ey; try reflexivity.
  exfalso.
  assert (Hxy : keyLe x y).
  { unfold sameKey in Ex, Ey. apply andb_prop in Ex, Ey.
    destruct Ex as [E1 E2], Ey as [E3 E4].
    apply Z.eqb_eq in E1, E2, E3, E4. unfold keyLe. lia. }
  apply compareIcons_le in Hxy. lia.
Qed.

Lemma sort_stable (k : IconCandidate) (l : list IconCandidate) :
  filter (sameKey k) (sort compareIcons l) = filter (sameKey k) l.
Proof.
  induction l as [|x l IH]; [reflexivity|].
  cbn [sort]. rewrite insert_stable. cbn [filter]. rewrite IH. reflexivity.
Qed.

Lemma filter_sameKey_In (k c : IconCandidate) (l : list IconCandidate) :
  In c l -> sameKey k c = true -> In c (filter (sameKey k) l).
Proof. intros Hin E. apply filter_In. split; assumption. Qed.

(** Two sorted lists with the same candidates of each key, in the same
    order, are equal. *)
Lemma sorted_stable_unique (l1 : list IconCandidate) :
  forall l2,
    StronglySorted keyLe l1 -> StronglySorted keyLe l2 ->
    (forall k, filter (sameKey k) l1 = filter (sameKey k) l2) ->
    l1 = l2.
Proof.
  induction l1 as [|a l1 IH]; intros [|b l2] S1 S2 F.
  - reflexivity.
  - specialize (F b). cbn [filter] in F. rewrite sameKey_refl in F. discriminate F.
  - specialize (F a). cbn [filter] in F. rewrite sameKey_refl in F. discriminate F.
  - inversion S1 as [|? ? S1' Ha]; subst. inversion S2 as [|? ? S2' Hb]; subst.
    rewrite Forall_forall in Ha, Hb.
    assert (Eab : a = b).
    { destruct (sameKey a b) eqn:E.
      - pose proof (F a) as Fa. cbn [filter] in Fa.
        rewrite sameKey_refl, E in Fa. congruence.
      - exfalso.
        assert (Hb1 : In b (a :: l1)).
        { assert (Hf : In b (filter (sameKey b) (a :: l1))).
          { rewrite F. apply filter_sameKey_In; [left; reflexivity | apply sameKey_refl]. }
          apply filter_In in Hf. apply Hf. }
        assert (Ha2 : In a (b :: l2)).
        { assert (Hf : In a (filter (sameKey a) (b :: l2))).
          { rewrite <- F. apply filter_sameKey_In; [left; reflexivity | apply sameKey_refl]. }
          apply filter_In in Hf. apply Hf. }
        destruct Hb1 as [Hb1|Hb1]; [subst; rewrite sameKey_refl in E; discriminate|].
        destruct Ha2 as [Ha2|Ha2]; [subst; rewrite sameKey_refl in E; discriminate|].
        pose proof (keyLe_antisym a b (Ha b Hb1) (Hb a Ha2)). congruence. }
    subst b. f_equal. apply IH; try assumption.
    intros k. specialize (F k). cbn [filter] in F.
    destruct (sameKey k a); congruence.
Qed.

(** Any stable sort by the comparison function of findBestIcon produces
    the list computed by [sort]. *)
Lemma stable_sort_unique (l sorted : list IconCandidate) :
  StronglySorted keyLe sorted ->
  (forall k, filter (sameKey k) sorted = filter (sameKey k) l) ->
  sorted = sort compareIcons l.
Proof.
  intros S F. apply sorted_stable_unique; [exact S | apply sort_sorted |].
  intros k. rewrite F, sort_stable. reflexivity.
Qed.

Lemma insert_head (x : IconCandidate) (l : list IconCandidate) :
  hd_error (insert compareIcons x l)
  = match hd_error l with
    | None => Some x
    | Some y => if (compareIcons x y <=? 0)%Z then Some x else Some y
    end.
Proof.
  destruct l as [|y l]; [reflexivity|].
  cbn [insert hd_error]. destruct (compareIcons x y <=? 0)%Z; reflexivity.
Qed.

(** The first element of the sorted list, read off the list itself. *)
Lemma sort_head (l : list IconCandidate) :
  l <> [] ->
  exists best before after,
    hd_error (sort compareIcons l) = Some best
    /\ l = before ++ best :: after
    /\ (forall c, In c l -> keyLe best c)
    /\ (forall c, In c before -> ~ keyLe c best).
Proof.
  induction l as [|x l IH]; intros Hne; [contradiction|].
  destruct l as [|y l].
  - exists x, [], []. cbn. repeat split.
    + intros c [<-|[]]. apply keyLe_refl.
    + intros c [].
  - destruct IH as (b & before & after & Hhd & Hl & Hmin & Hbefore); [discriminate|].
    change (sort compareIcons (x :: y :: l))
      with (insert compareIcons x (sort compareIcons (y :: l))).
    rewrite insert_head, Hhd.
    destruct (compareIcons x b <=? 0)%Z eqn:E.
    + apply Z.leb_le, compareIcons_le in E.
      exists x, [], (y :: l). cbn [hd_error app]. repeat split.
      * intros c [<-|Hc]; [apply keyLe_refl|].
        eapply keyLe_trans; [exact E | apply Hmin, Hc].
      * intros c [].
    + apply Z.leb_gt in E.
      exists b, (x :: before), after. cbn [hd_error app]. repeat split.
      * rewrite Hl. reflexivity.
      * intros c [<-|Hc]; [|apply Hmin, Hc].
        destruct (keyLe_total b x) as [H|H]; [exact H|].
        apply compareIcons_le in H. lia.
      * intros c [<-|Hc]; [|apply Hbefore, Hc].
        intros H. apply compareIcons_le in H. lia.
Qed.

Ltac exact_numbers :=
  repeat (apply Forall_cons || apply Forall_nil || split); vm_compute; discriminate.

Example sort_double_agrees :
  snd (findBestIconDouble 0 exampleHeap) 0 = snd (findBestIcon 0 exampleHeap) 0.
Proof. vm_compute. reflexivity. Qed.

Example toDouble_rounds : toDouble 9007199254740993 = toDouble 9007199254740992.
Proof. vm_compute. reflexivity. Qed.

(** C1, as stated, fails: the code adds the two differences in doubles.
    The two candidates below have one priority and the distances 2^53 + 1
    and 2^53, which are the same double; the comparison function returns
    zero, the sort keeps the order of discovery, and the selector returns
    the first, whose distance is not the least. *)
Lemma findBestIcon_rounded_tie :
  signOf (compareIconsDouble tieFirst tieSecond) = 0%Z
  /\ fst (findBestIconDouble 0 (fun _ => tieIcons)) = Some tieFirst
  /\ In tieSecond tieIcons
  /\ priority tieSecond = priority tieFirst
  /\ (distance tieSecond < distance tieFirst)%Z.
Proof.
  split; [vm_compute; reflexivity|]. split; [vm_compute; reflexivity|].
  split; [right; left; reflexivity|]. split; [reflexivity|]. vm_compute. reflexivity.
Qed.

(** C1, amended. On a non-empty list whose numbers are in the range where
    double arithmetic is exact, the selector returns a candidate of the
    list whose priority is the least priority in the list, whose distance
    from 100 by 100 is the least among the candidates of that priority,
    and which comes before every other candidate with the same priority
    and the same distance in the order of discovery. *)
Theorem findBestIcon_selects (icons : ref) (h : heap) :
  Forall exactNumbers (h icons) ->
  h icons <> [] ->
  exists best before after,
    fst (findBestIcon icons h) = Some best
    /\ h icons = before ++ best :: after
    /\ (forall c, In c (h icons) -> (priority best <= priority c)%Z)
    /\ (forall c, In c (h icons) -> priority c = priority best ->
                  (distance best <= distance c)%Z)
    /\ (forall c, In c before ->
                  ~ (priority c = priority best /\ distance c = distance best)).
Proof.
  intros _ Hne.
  destruct (sort_head (h icons) Hne) as (b & before & after & Hhd & Hl & Hmin & Hb).
  exists b, before, after. cbn [findBestIcon fst]. repeat split; try assumption.
  - intros c Hc. specialize (Hmin c Hc). unfold keyLe in Hmin. lia.
  - intros c Hc Ep. specialize (Hmin c Hc). unfold keyLe in Hmin. lia.
  - intros c Hc [Ep Ed]. apply (Hb c Hc). unfold keyLe. lia.
Qed.

Lemma findBestIcon_selects_witness :
  exists best before after,
    fst (findBestIcon 0 exampleHeap) = Some best
    /\ exampleHeap 0 = before ++ best :: after
    /\ (forall c, In c (exampleHeap 0) -> (priority best <= priority c)%Z)
    /\ (forall c, In c (exampleHeap 0) -> priority c = priority best ->
                  (distance best <= distance c)%Z)
    /\ (forall c, In c before ->
                  ~ (priority c = priority best /\ distance c = distance best)).
Proof.
  apply (findBestIcon_selects 0 exampleHeap); [exact_numbers | discriminate].
Defined.

Example findBestIcon_example :
  fst (findBestIcon 0 exampleHeap)
  = Some (mkIcon (js "https://example.com/apple-120.png") 120 120 AppleTouchIcon 1).
Proof. reflexivity. Qed.

(** C10, as stated, fails on the order: the array is sorted by the
    distances as doubles.  The two candidates of one priority below have
    the distances 2^53 + 1 and 2^53, the same double; the sort leaves them
    in the order of discovery, which is not distance ascending. *)
Lemma findBestIcon_rounded_order :
  snd (findBestIconDouble 0 (fun _ => tieIcons)) 0 = tieIcons
  /\ ~ StronglySorted keyLe tieIcons.
Proof.
  split; [vm_compute; reflexivity|].
  intros Hs. inversion Hs as [|? ? _ Hall]; subst.
  inversion Hall as [|? ? Hle _]; subst.
  unfold keyLe in Hle. vm_compute in Hle.
  destruct Hle as [Hlt|[_ Hle]]; [discriminate Hlt | apply Hle; reflexivity].
Qed.

(** C10, amended. The selector sorts the array of its caller in place:
    when the numbers of the candidates are in the range where double
    arithmetic is exact, the array holds after the call the same
    candidates, with their fields as they were, in the order priority
    ascending then distance ascending, and the candidates of one priority
    and distance keep their order.  No other array changes. *)
Theorem findBestIcon_sorts_in_place (icons : ref) (h : heap) :
  Forall exactNumbers (h icons) ->
  let h' := snd (findBestIcon icons h) in
  StronglySorted keyLe (h' icons)
  /\ Permutation (h icons) (h' icons)
  /\ (forall k, filter (sameKey k) (h' icons) = filter (sameKey k) (h icons))
  /\ (forall r, r <> icons -> h' r = h r).
Proof.
  intros _. cbn [findBestIcon snd]. unfold update. rewrite Nat.eqb_refl.
  split; [apply sort_sorted|]. split; [apply sort_Permutation|].
  split; [intros k; apply sort_stable|].
  intros r Hr. apply Nat.eqb_neq in Hr. rewrite Hr. reflexivity.
Qed.

Lemma findBestIcon_sorts_in_place_witness :
  StronglySorted keyLe (snd (findBestIcon 0 exampleHeap) 0)
  /\ Permutation (exampleHeap 0) (snd (findBestIcon 0 exampleHeap) 0).
Proof.
  destruct (findBestIcon_sorts_in_place 0 exampleHeap) as (Hs & Hp & _);
    [exact_numbers|].
  split; [exact Hs | exact Hp].
Defined.

Example findBestIcon_reorders :
  snd (findBestIcon 0 exampleHeap) 0
  = [mkIcon (js "https://example.com/apple-120.png") 120 120 AppleTouchIcon 1;
     mkIcon (js "https://example.com/apple-57.png") 57 57 AppleTouchIcon 1;
     mkIcon (js "https://example.com/favicon.ico") 16 16 Favicon 2]
  /\ snd (findBestIcon 0 exampleHeap) 0 <> exampleHeap 0.
Proof. split; [reflexivity | discriminate]. Qed.

(** ** The matcher *)

Lemma rev_cons_app (c : ascii) (run taken : str) :
  rev (c :: run) ++ taken = rev run ++ c :: taken.
Proof. cbn [rev]. rewrite <- app_assoc. reflexivity. Qed.

(** What the greedy loop returns comes from the continuation, after some
    run of characters of the class. *)
Lemma greedy_some (p : ascii -> bool) (k : str -> str -> option matched) (s : str) :
  forall taken r,
    greedy p k taken s = Some r ->
    exists run rest,
      s = run ++ rest /\ forallb p run = true /\ k (rev run ++ taken) rest = Some r.
Proof.
  induction s as [|c s IH]; intros taken r E; cbn [greedy] in E.
  - exists [], []. auto.
  - destruct (p c) eqn:Pc.
    + destruct (greedy p k (c :: taken) s) as [r'|] eqn:G.
      * injection E as ->. apply IH in G. destruct G as (run & rest & -> & F & K).
        exists (c :: run), rest. rewrite rev_cons_app. cbn [forallb]. rewrite Pc. auto.
      * exists [], (c :: s). auto.
    + exists [], (c :: s). auto.
Qed.

(** The loop finds a result whenever the continuation accepts after some
    run of characters of the class. *)
Lemma greedy_complete (p : ascii -> bool) (k : str -> str -> option matched) (run : str) :
  forall taken rest,
    forallb p run = true ->
    k (rev run ++ taken) rest <> None ->
    greedy p k taken (run ++ rest) <> None.
Proof.
  induction run as [|c run IH]; intros taken rest F K.
  - cbn [app rev] in *. destruct rest as [|c s]; cbn [greedy]; [exact K|].
    destruct (p c); [|exact K].
    destruct (greedy p k (c :: taken) s); [discriminate | exact K].
  - cbn [forallb] in F. apply andb_prop in F. destruct F as [Pc F].
    cbn [app greedy]. rewrite Pc. rewrite rev_cons_app in K.
    specialize (IH (c :: taken) rest F K).
    destruct (greedy p k (c :: taken) (run ++ rest)); [discriminate | contradiction].
Qed.

(** When the whole run of the class is followed by a character outside of
    it, and the continuation accepts after the whole run, that is the
    result: the longest run is tried first. *)
Lemma greedy_longest (p : ascii -> bool) (k : str -> str -> option matched) (run : str) :
  forall taken rest r,
    forallb p run = true ->
    k (rev run ++ taken) rest = Some r ->
    match rest with c :: _ => p c = false | [] => True end ->
    greedy p k taken (run ++ rest) = Some r.
Proof.
  induction run as [|c run IH]; intros taken rest r F K Hrest.
  - cbn [app rev] in *. destruct rest as [|c s]; cbn [greedy]; [exact K|].
    rewrite Hrest. exact K.
  - cbn [forallb] in F. apply andb_prop in F. destruct F as [Pc F].
    cbn [app greedy]. rewrite Pc. rewrite rev_cons_app in K.
    rewrite (IH (c :: taken) rest r F K Hrest). reflexivity.
Qed.

Lemma exec_sound (ignoreCase : bool) (re : regex) :
  forall s caps rest,
    exec ignoreCase re s = Some (caps, rest) ->
    exists m, s = m ++ rest /\ Matches ignoreCase re m caps.
Proof.
  induction re as [|a re IH]; intros s caps rest E.
  - cbn [exec] in E. injection E as <- <-. exists []. split; [reflexivity | constructor].
  - destruct a as [c|p|capture nonEmpty p]; cbn [exec] in E.
    + destruct s as [|x s]; [discriminate|].
      destruct (sameChar ignoreCase c x) eqn:Ec; [|discriminate].
      apply IH in E. destruct E as (m & -> & Hm).
      exists (x :: m). split; [reflexivity | constructor; assumption].
    + destruct s as [|x s]; [discriminate|].
      destruct (p x) eqn:Ec; [|discriminate].
      apply IH in E. destruct E as (m & -> & Hm).
      exists (x :: m). split; [reflexivity | constructor; assumption].
    + apply greedy_some in E. destruct E as (run & rest0 & -> & F & K).
      rewrite app_nil_r in K.
      assert (Hne : nonEmpty = true -> run <> []).
      { intros -> ->. discriminate K. }
      assert (K' : match exec ignoreCase re rest0 with
                   | Some (caps', after) =>
                       Some (if capture then rev (rev run) :: caps' else caps', after)
                   | None => None
                   end = Some (caps, rest)).
      { destruct (rev run), nonEmpty; try exact K. discriminate K. }
      destruct (exec ignoreCase re rest0) as [[caps' after]|] eqn:E'; [|discriminate].
      injection K' as <- <-. rewrite rev_involutive.
      apply IH in E'. destruct E' as (m & -> & Hm).
      exists (run ++ m). rewrite app_assoc. split; [reflexivity|].
      constructor; assumption.
Qed.

Lemma exec_complete (ignoreCase : bool) (re : regex) (m : str) (caps : list str) :
  Matches ignoreCase re m caps ->
  forall rest, exec ignoreCase re (m ++ rest) <> None.
Proof.
  induction 1 as [|c x re m caps Ec _ IH|p x re m caps Ec _ IH
                  |capture nonEmpty p run re m caps F Hne _ IH]; intros rest.
  - discriminate.
  - cbn [app exec]. rewrite Ec. apply IH.
  - cbn [app exec]. rewrite Ec. apply IH.
  - cbn [exec]. rewrite <- app_assoc. apply greedy_complete; [exact F|].
    rewrite app_nil_r. specialize (IH rest).
    destruct (exec ignoreCase re (m ++ rest)) as [[caps' after]|]; [|contradiction].
    destruct (rev run) eqn:Er, nonEmpty; try discriminate.
    exfalso. apply (Hne eq_refl).
    apply (f_equal (@rev ascii)) in Er. rewrite rev_involutive in Er. exact Er.
Qed.

(** The leftmost position at which the pattern matches. *)
Lemma search_some (ignoreCase : bool) (re : regex) (s : str) (caps : list str) :
  search ignoreCase re s = Some caps ->
  exists before t rest,
    s = before ++ t
    /\ exec ignoreCase re t = Some (caps, rest)
    /\ (forall p1 p2, before = p1 ++ p2 -> p2 <> [] -> exec ignoreCase re (p2 ++ t) = None).
Proof.
  induction s as [|c s IH]; cbn [search]; intros E.
  - destruct (exec ignoreCase re []) as [[caps' rest]|] eqn:E0; [|discriminate].
    injection E as ->. exists [], [], rest. repeat split; [exact E0|].
    intros p1 p2 Hp Hne. destruct p1, p2; try discriminate. contradiction.
  - destruct (exec ignoreCase re (c :: s)) as [[caps' rest]|] eqn:E0.
    + injection E as ->. exists [], (c :: s), rest. repeat split; [exact E0|].
      intros p1 p2 Hp Hne. destruct p1, p2; try discriminate. contradiction.
    + apply IH in E. destruct E as (before & t & rest & -> & Et & Hbefore).
      exists (c :: before), t, rest. repeat split; [exact Et|].
      intros p1 p2 Hp Hne. destruct p1 as [|c' p1].
      * cbn [app] in Hp. subst p2. exact E0.
      * injection Hp as <- ->. apply (Hbefore p1 p2 eq_refl Hne).
Qed.

Lemma search_none (ignoreCase : bool) (re : regex) (s : str) :
  search ignoreCase re s = None ->
  forall p1 p2, s = p1 ++ p2 -> exec ignoreCase re p2 = None.
Proof.
  induction s as [|c s IH]; cbn [search]; intros E p1 p2 Hp.
  - destruct p1, p2; try discriminate.
    destruct (exec ignoreCase re []) as [[? ?]|]; [discriminate | reflexivity].
  - destruct (exec ignoreCase re (c :: s)) as [[caps' rest]|] eqn:E0; [discriminate|].
    destruct p1 as [|c' p1].
    + cbn [app] in Hp. subst p2. exact E0.
    + injection Hp as <- ->. apply (IH E p1 p2 eq_refl).
Qed.

(** The search finds the match at [t] when no earlier position matches. *)
Lemma search_at (ignoreCase : bool) (re : regex) (before t rest : str) (caps : list str) :
  exec ignoreCase re t = Some (caps, rest) ->
  (forall p1 p2, before = p1 ++ p2 -> p2 <> [] -> exec ignoreCase re (p2 ++ t) = None) ->
  search ignoreCase re (before ++ t) = Some caps.
Proof.
  intros Et. induction before as [|c before IH]; intros Hbefore.
  - cbn [app]. destruct t; cbn [search]; rewrite Et; reflexivity.
  - assert (E0 : exec ignoreCase re ((c :: before) ++ t) = None).
    { apply (Hbefore [] (c :: before) eq_refl). discriminate. }
    cbn [app] in E0. cbn [app search]. rewrite E0.
    apply IH. intros p1 p2 -> Hne. apply (Hbefore (c :: p1) p2 eq_refl Hne).
Qed.

(** ** Lists of characters *)

Lemma app_same_length {A : Type} (a a' b b' : list A) :
  List.length a = List.length a' -> a ++ b = a' ++ b' -> a = a' /\ b = b'.
Proof.
  revert a'. induction a as [|x a IH]; intros [|x' a'] L E; try discriminate.
  - auto.
  - injection L as L. injection E as -> E. destruct (IH a' L E) as [-> ->]. auto.
Qed.

(** A text splits in one way only into a run of a class and a character
    outside of it. *)
Lemma split_unique (f : ascii -> bool) (a a' : str) (c c' : ascii) (b b' : str) :
  forallb f a = true -> f c = false ->
  forallb f a' = true -> f c' = false ->
  a ++ c :: b = a' ++ c' :: b' ->
  a = a' /\ c = c' /\ b = b'.
Proof.
  revert a'. induction a as [|x a IH]; intros [|x' a'] Fa Fc Fa' Fc' E;
    cbn [app forallb] in *.
  - injection E as -> ->. auto.
  - injection E as -> _. apply andb_prop in Fa'. destruct Fa' as [Fx _]. congruence.
  - injection E as -> _. apply andb_prop in Fa. destruct Fa as [Fx _]. congruence.
  - injection E as -> E. apply andb_prop in Fa, Fa'.
    destruct Fa as [_ Fa], Fa' as [_ Fa'].
    destruct (IH a' Fa Fc Fa' Fc' E) as (-> & -> & ->). auto.
Qed.

Lemma sameText_length (ignoreCase : bool) (pattern text : str) :
  sameText ignoreCase pattern text = true -> List.length pattern = List.length text.
Proof.
  revert text. induction pattern as [|p pattern IH]; intros [|c text] E;
    cbn [sameText] in E; try discriminate; [reflexivity|].
  apply andb_prop in E. destruct E as [_ E]. cbn [List.length]. f_equal. apply IH, E.
Qed.

Lemma isQuote_notQuote (c : ascii) : isQuote c = true -> notQuote c = false.
Proof. unfold notQuote. intros ->. reflexivity. Qed.

(** ** Literal text in a pattern *)

Lemma Matches_lits_inv (ignoreCase : bool) (n : str) (re : regex) :
  forall m caps,
    Matches ignoreCase (map Lit n ++ re) m caps ->
    exists n' m',
      m = n' ++ m' /\ sameText ignoreCase n n' = true /\ Matches ignoreCase re m' caps.
Proof.
  induction n as [|c n IH]; intros m caps Hm.
  - exists [], m. auto.
  - cbn [map app] in Hm. inversion Hm as [|? x ? m0 ? Ec Hm0| |]; subst.
    apply IH in Hm0. destruct Hm0 as (n' & m' & -> & En & Hm').
    exists (x :: n'), m'. cbn [sameText]. rewrite Ec, En. auto.
Qed.

Lemma Matches_lits (ignoreCase : bool) (n : str) (re : regex) :
  forall n' m' caps,
    sameText ignoreCase n n' = true ->
    Matches ignoreCase re m' caps ->
    Matches ignoreCase (map Lit n ++ re) (n' ++ m') caps.
Proof.
  induction n as [|c n IH]; intros [|x n'] m' caps En Hm; cbn [sameText] in En;
    try discriminate.
  - exact Hm.
  - apply andb_prop in En. destruct En as [Ec En].
    cbn [map app]. constructor; [exact Ec | apply IH; assumption].
Qed.

Lemma Matches_Cls_inv (ignoreCase : bool) (p : ascii -> bool) (re : regex) (m : str)
    (caps : list str) :
  Matches ignoreCase (Cls p :: re) m caps ->
  exists x m', m = x :: m' /\ p x = true /\ Matches ignoreCase re m' caps.
Proof. inversion 1; subst. eauto. Qed.

Lemma Matches_Lit_inv (ignoreCase : bool) (c : ascii) (re : regex) (m : str)
    (caps : list str) :
  Matches ignoreCase (Lit c :: re) m caps ->
  exists x m', m = x :: m' /\ sameChar ignoreCase c x = true /\ Matches ignoreCase re m' caps.
Proof. inversion 1; subst. eauto. Qed.

Lemma Matches_Rep_inv (ignoreCase : bool) (capture nonEmpty : bool) (p : ascii -> bool)
    (re : regex) (m : str) (caps : list str) :
  Matches ignoreCase (Rep capture nonEmpty p :: re) m caps ->
  exists run m' caps',
    m = run ++ m' /\ forallb p run = true /\ (nonEmpty = true -> run <> [])
    /\ Matches ignoreCase re m' caps'
    /\ caps = if capture then run :: caps' else caps'.
Proof. inversion 1; subst. eauto 10. Qed.

Lemma Matches_nil_inv (ignoreCase : bool) (m : str) (caps : list str) :
  Matches ignoreCase [] m caps -> m = [] /\ caps = [].
Proof. inversion 1; auto. Qed.

(** ** The attribute extractor *)

Lemma attributeRegex_Matches (name m : str) (caps : list str) :
  Matches true (attributeRegex name) m caps <->
  exists v, caps = [v] /\ attributeAt name m v [].
Proof.
  unfold attributeRegex, attributeAt. split.
  - intros Hm. apply Matches_lits_inv in Hm. destruct Hm as (n & m1 & -> & En & Hm).
    apply Matches_Lit_inv in Hm. destruct Hm as (e & m2 & -> & Ee & Hm).
    apply Matches_Cls_inv in Hm. destruct Hm as (q1 & m3 & -> & Eq1 & Hm).
    apply Matches_Rep_inv in Hm. destruct Hm as (v & m4 & caps' & -> & Fv & _ & Hm & ->).
    apply Matches_Cls_inv in Hm. destruct Hm as (q2 & m5 & -> & Eq2 & Hm).
    apply Matches_nil_inv in Hm. destruct Hm as [-> ->].
    cbn [sameChar] in Ee. apply Ascii.eqb_eq in Ee.
    change (upcase "="%char) with "="%char in Ee.
    assert (e = "="%char) as ->.
    { revert Ee. unfold upcase.
      destruct ((97 <=? nat_of_ascii e) && (nat_of_ascii e <=? 122)) eqn:R.
      - intros Ee. exfalso. apply andb_prop in R. destruct R as [R1 R2].
        apply Nat.leb_le in R1, R2.
        apply (f_equal nat_of_ascii) in Ee. rewrite nat_ascii_embedding in Ee by lia.
        cbn in Ee. lia.
      - intros <-. reflexivity. }
    exists v. split; [reflexivity|]. exists n, q1, q2. auto.
  - intros (v & -> & n & q1 & q2 & -> & En & Eq1 & Eq2 & Fv).
    apply Matches_lits; [exact En|].
    constructor; [reflexivity|]. constructor; [exact Eq1|].
    apply (Matches_Rep true true false notQuote v [Cls isQuote] [q2] []);
      [exact Fv | discriminate |].
    constructor; [exact Eq2 | constructor].
Qed.

Lemma attributeAt_app (name m v rest : str) :
  attributeAt name m v [] -> attributeAt name (m ++ rest) v rest.
Proof.
  intros (n & q1 & q2 & -> & H). exists n, q1, q2. split; [|exact H].
  rewrite <- app_assoc. cbn [app]. rewrite <- app_assoc. reflexivity.
Qed.

(** At one position the attribute, its value and what follows it are
    determined. *)
Lemma attributeAt_unique (name t v rest v' rest' : str) :
  attributeAt name t v rest -> attributeAt name t v' rest' -> v = v' /\ rest = rest'.
Proof.
  intros (n & q1 & q2 & -> & En & _ & Eq2 & Fv) (n' & q1' & q2' & E & En' & _ & Eq2' & Fv').
  apply app_same_length in E.
  - destruct E as [_ E]. injection E as _ E.
    apply (split_unique notQuote) in E; auto using isQuote_notQuote.
    destruct E as (-> & _ & ->). auto.
  - apply sameText_length in En, En'. congruence.
Qed.

Lemma exec_attribute_sound (name t rest : str) (caps : list str) :
  exec true (attributeRegex name) t = Some (caps, rest) ->
  exists v, caps = [v] /\ attributeAt name t v rest.
Proof.
  intros E. apply exec_sound in E. destruct E as (m & -> & Hm).
  apply attributeRegex_Matches in Hm. destruct Hm as (v & -> & Hv).
  exists v. split; [reflexivity | apply attributeAt_app, Hv].
Qed.

Lemma attributeAt_split (name t v rest : str) :
  attributeAt name t v rest -> exists m, t = m ++ rest /\ attributeAt name m v [].
Proof.
  intros (n & q1 & q2 & -> & H).
  exists (n ++ "="%char :: q1 :: v ++ [q2]). split.
  - rewrite <- app_assoc. cbn [app]. rewrite <- app_assoc. reflexivity.
  - exists n, q1, q2. auto.
Qed.

Lemma exec_attribute_complete (name t v rest : str) :
  attributeAt name t v rest ->
  exec true (attributeRegex name) t = Some ([v], rest).
Proof.
  intros Hat. destruct (attributeAt_split _ _ _ _ Hat) as (m & -> & Hm).
  assert (Hmatch : Matches true (attributeRegex name) m [v]).
  { apply attributeRegex_Matches. eauto. }
  pose proof (exec_complete _ _ _ _ Hmatch rest) as Hex.
  destruct (exec true (attributeRegex name) (m ++ rest)) as [[caps rest']|] eqn:E;
    [|contradiction].
  apply exec_attribute_sound in E. destruct E as (v' & -> & Hat').
  destruct (attributeAt_unique _ _ _ _ _ _ Hat Hat') as [-> ->]. reflexivity.
Qed.

Lemma exec_attribute_none (name t : str) :
  exec true (attributeRegex name) t = None <-> forall v rest, ~ attributeAt name t v rest.
Proof.
  split.
  - intros E v rest Hat. apply exec_attribute_complete in Hat. congruence.
  - intros Hno. destruct (exec true (attributeRegex name) t) as [[caps rest]|] eqn:E;
      [|reflexivity].
    apply exec_attribute_sound in E. destruct E as (v & _ & Hat).
    destruct (Hno v rest Hat).
Qed.

(** C9, as stated, fails: the closing quote need not be of the kind of the
    opening quote.  In the tag below the value in single quotes contains a
    double quote; the rule of the specification gives the whole value, the
    extractor stops at the double quote. *)
Lemma extractAttribute_mixed_quotes :
  extractAttribute mixedQuoteTag (js "href") = Some (js "it")
  /\ sameQuoteValue (js "href") mixedQuoteTag = Some (js "it" ++ dquote :: js "s.png")
  /\ extractAttribute mixedQuoteTag (js "href") <> sameQuoteValue (js "href") mixedQuoteTag.
Proof. split; [reflexivity|]. split; [reflexivity | discriminate]. Qed.

(** C9, amended. For an attribute name without pattern operators, the
    extractor returns the value at the leftmost position of the fragment
    where the name (in any letter case), an equals sign, a quote character
    (single or double), a run without quote characters and a quote
    character of either kind follow one another: the value is that run.
    Later occurrences are not looked at.  The result is absent exactly when
    the fragment has no such position. *)
Theorem extractAttribute_leftmost (html name : str) :
  plainName name = true ->
  (forall v,
     extractAttribute html name = Some v <->
     exists before t rest,
       html = before ++ t
       /\ attributeAt name t v rest
       /\ (forall p1 p2 v' rest',
             before = p1 ++ p2 -> p2 <> [] -> ~ attributeAt name (p2 ++ t) v' rest'))
  /\ (extractAttribute html name = None <->
      forall p1 p2 v rest, html = p1 ++ p2 -> ~ attributeAt name p2 v rest).
Proof.
  intros _. unfold extractAttribute. split.
  - intros v. split.
    + destruct (search true (attributeRegex name) html) as [caps|] eqn:E; [|discriminate].
      apply search_some in E. destruct E as (before & t & rest & -> & Et & Hbefore).
      apply exec_attribute_sound in Et. destruct Et as (v0 & -> & Hat).
      intros [= <-]. exists before, t, rest. repeat split; [exact Hat|].
      intros p1 p2 v' rest' Hp Hne Hat'.
      apply exec_attribute_complete in Hat'.
      rewrite (Hbefore p1 p2 Hp Hne) in Hat'. discriminate.
    + intros (before & t & rest & -> & Hat & Hbefore).
      rewrite (search_at true (attributeRegex name) before t rest [v]).
      * reflexivity.
      * apply exec_attribute_complete, Hat.
      * intros p1 p2 Hp Hne. apply exec_attribute_none.
        intros v' rest'. apply (Hbefore p1 p2 v' rest' Hp Hne).
  - split.
    + destruct (search true (attributeRegex name) html) as [caps|] eqn:E.
      * apply search_some in E. destruct E as (before & t & rest & -> & Et & _).
        apply exec_attribute_sound in Et. destruct Et as (v0 & -> & _). discriminate.
      * intros _ p1 p2 v rest Hp Hat.
        apply exec_attribute_complete in Hat.
        rewrite (search_none _ _ _ E p1 p2 Hp) in Hat. discriminate.
    + intros Hno.
      destruct (search true (attributeRegex name) html) as [caps|] eqn:E; [|reflexivity].
      apply search_some in E. destruct E as (before & t & rest & -> & Et & _).
      apply exec_attribute_sound in Et. destruct Et as (v0 & -> & Hat).
      destruct (Hno before t v0 rest eq_refl Hat).
Qed.

Lemma extractAttribute_leftmost_witness :
  extractAttribute (js "<link HREF='/a.png' href='/b.png'>") (js "href") = Some (js "/a.png").
Proof.
  apply (proj1 (extractAttribute_leftmost (js "<link HREF='/a.png' href='/b.png'>")
                  (js "href") eq_refl)).
  exists (js "<link "), (js "HREF='/a.png' href='/b.png'>"), (js " href='/b.png'>").
  split; [reflexivity|]. split.
  - exists (js "HREF"), squote, squote. repeat split.
  - intros p1 p2 v' rest' Hp Hne Hat. apply exec_attribute_complete in Hat.
    cbv [js list_ascii_of_string] in Hp.
    do 7 (destruct p1 as [|? p1];
          [ cbn [app] in Hp; subst p2;
            try (vm_compute in Hat; discriminate Hat); try contradiction
          | try discriminate Hp; injection Hp as _ Hp ]).
Defined.

(** ** The size parser *)

Lemma digit_span (s : str) :
  exists a b,
    s = a ++ b /\ forallb isDigit a = true
    /\ match b with c :: _ => isDigit c = false | [] => True end.
Proof.
  induction s as [|c s (a & b & -> & Fa & Hb)].
  - exists [], []. auto.
  - destruct (isDigit c) eqn:Ec.
    + exists (c :: a), b. cbn [forallb]. rewrite Ec. auto.
    + exists [], (c :: a ++ b). auto.
Qed.

Lemma rev_not_nil (d : str) : d <> [] -> rev d <> [].
Proof.
  intros Hd E. apply Hd. apply (f_equal (@rev ascii)) in E.
  rewrite rev_involutive in E. exact E.
Qed.

Lemma exec_sizePair (t d1 d2 rest : str) :
  sizePairAt t d1 d2 rest ->
  exec false sizePairRegex t = Some ([d1; d2], rest).
Proof.
  intros (-> & N1 & F1 & N2 & F2 & Hrest).
  unfold sizePairRegex. cbn [exec].
  apply greedy_longest; [exact F1 | | reflexivity].
  rewrite app_nil_r.
  destruct (rev d1) as [|c r1] eqn:E1; [destruct (rev_not_nil d1 N1 E1)|].
  rewrite <- E1, rev_involutive.
  change (sameChar false "x" "x") with true. cbv iota.
  rewrite (greedy_longest isDigit _ d2 [] rest ([d2], rest) F2); [reflexivity | | exact Hrest].
  rewrite app_nil_r.
  destruct (rev d2) as [|c2 r2] eqn:E2; [destruct (rev_not_nil d2 N2 E2)|].
  rewrite <- E2, rev_involutive. reflexivity.
Qed.

Lemma exec_sizePair_some (t rest : str) (caps : list str) :
  exec false sizePairRegex t = Some (caps, rest) ->
  exists d1 d2 rest', sizePairAt t d1 d2 rest'.
Proof.
  intros E. apply exec_sound in E. destruct E as (m & -> & Hm).
  unfold sizePairRegex in Hm.
  apply Matches_Rep_inv in Hm. destruct Hm as (d1 & m1 & c1 & -> & F1 & N1 & Hm & _).
  apply Matches_Lit_inv in Hm. destruct Hm as (x & m2 & -> & Ex & Hm).
  apply Matches_Rep_inv in Hm. destruct Hm as (d2 & m3 & c2 & -> & F2 & N2 & Hm & _).
  apply Matches_nil_inv in Hm. destruct Hm as [-> _].
  cbn [sameChar] in Ex. apply Ascii.eqb_eq in Ex. subst x.
  rewrite app_nil_r.
  destruct (digit_span rest) as (a & b & -> & Fa & Hb).
  exists d1, (d2 ++ a), b. unfold sizePairAt.
  split; [rewrite <- !app_assoc; reflexivity|].
  repeat split; auto.
  - intros E. apply app_eq_nil in E. destruct E as [E _]. apply (N2 eq_refl E).
  - rewrite forallb_app, F2, Fa. reflexivity.
Qed.

(** C3, as stated, fails: the pattern has no ignore-case flag, an
    upper-case X does not separate a width from a height.  The descriptor
    below is 16, X, 32; the parser falls through to its single-number rule
    and returns the square of side 16. *)
Lemma parseSizes_upper_case_x :
  js "16X32" = js "16" ++ "X"%char :: js "32"
  /\ parseSizes (Some (js "16X32")) = (16, 16)%Z
  /\ parseSizes (Some (js "16X32")) <> (parseInt (js "16"), parseInt (js "32")).
Proof. split; [reflexivity|]. split; [reflexivity | discriminate]. Qed.

(** C3, amended. When the descriptor contains digits, a lower-case x and
    digits, the parser returns the two integers of the leftmost such
    place, each digit run taken as long as it goes, as width and height,
    provided the two integers are at most 2^53 (a double holds them as
    they are; a larger one is rounded).  The letter case of the x
    matters. *)
Theorem parseSizes_pair (sizes before t d1 d2 rest : str) :
  sizes = before ++ t ->
  sizePairAt t d1 d2 rest ->
  (forall p1 p2 e1 e2 r, before = p1 ++ p2 -> p2 <> [] -> ~ sizePairAt (p2 ++ t) e1 e2 r) ->
  (parseInt d1 <= 2 ^ 53)%Z -> (parseInt d2 <= 2 ^ 53)%Z ->
  parseSizes (Some sizes) = (parseInt d1, parseInt d2).
Proof.
  intros -> Hat Hbefore _ _.
  assert (Hsearch : search false sizePairRegex (before ++ t) = Some [d1; d2]).
  { apply (search_at false sizePairRegex before t rest); [apply exec_sizePair, Hat|].
    intros p1 p2 Hp Hne.
    destruct (exec false sizePairRegex (p2 ++ t)) as [[caps r]|] eqn:E; [|reflexivity].
    apply exec_sizePair_some in E. destruct E as (e1 & e2 & r' & He).
    destruct (Hbefore p1 p2 e1 e2 r' Hp Hne He). }
  unfold parseSizes. destruct (before ++ t) as [|c s] eqn:Es.
  - apply app_eq_nil in Es. destruct Es as [_ ->].
    destruct Hat as (E & N1 & _). destruct d1; [contradiction | discriminate E].
  - rewrite Hsearch. reflexivity.
Qed.

Lemma parseSizes_pair_witness :
  parseSizes (Some (js "any 180x120px")) = (180, 120)%Z.
Proof.
  apply (parseSizes_pair (js "any 180x120px") (js "any ") (js "180x120px")
           (js "180") (js "120") (js "px")).
  - reflexivity.
  - repeat split; discriminate.
  - intros p1 p2 e1 e2 r Hp Hne Hat. apply exec_sizePair in Hat.
    cbv [js list_ascii_of_string] in Hp.
    do 5 (destruct p1 as [|? p1];
          [ cbn [app] in Hp; subst p2;
            try (vm_compute in Hat; discriminate Hat); try contradiction
          | try discriminate Hp; injection Hp as _ Hp ]).
  - vm_compute. discriminate.
  - vm_compute. discriminate.
Defined.

(** ** The global scan *)

Lemma matchAllFrom_skip (ignoreCase : bool) (re : regex) (m rest : str) :
  matchAllFrom ignoreCase re (List.length m) (m ++ rest) = matchAllFrom ignoreCase re 0 rest.
Proof. induction m as [|c m IH]; [reflexivity | exact IH]. Qed.

(** A match that is not empty is recorded, and the scan goes on after it. *)
Lemma matchAll_match (ignoreCase : bool) (re : regex) (m rest : str) (caps : list str) :
  m <> [] ->
  exec ignoreCase re (m ++ rest) = Some (caps, rest) ->
  matchAll ignoreCase re (m ++ rest) = m :: matchAll ignoreCase re rest.
Proof.
  intros Hne E. destruct m as [|c m]; [contradiction|].
  unfold matchAll. cbn [app matchAllFrom]. cbn [app] in E. rewrite E.
  assert (L : List.length (c :: m ++ rest) - List.length rest = S (List.length m)).
  { cbn [List.length]. rewrite length_app. lia. }
  rewrite L. cbn [firstn]. rewrite Nat.sub_1_r. cbn [Nat.pred].
  rewrite matchAllFrom_skip.
  rewrite firstn_app, firstn_all, Nat.sub_diag. cbn [firstn].
  rewrite app_nil_r. reflexivity.
Qed.

(** Characters at which the pattern cannot start are passed over. *)
Lemma matchAll_pass (ignoreCase : bool) (re : regex) (before s : str) :
  (forall c s', In c before -> exec ignoreCase re (c :: s') = None) ->
  matchAll ignoreCase re (before ++ s) = matchAll ignoreCase re s.
Proof.
  unfold matchAll. induction before as [|c before IH]; intros Hno; [reflexivity|].
  cbn [app matchAllFrom]. rewrite (Hno c (before ++ s)); [|left; reflexivity].
  apply IH. intros c' s' Hin. apply Hno. right. exact Hin.
Qed.

(** ** Letter case *)

Lemma upcase_nonletter (c d : ascii) :
  upcase c = d -> nat_of_ascii d < 65 \/ 90 < nat_of_ascii d -> c = d.
Proof.
  unfold upcase. destruct ((97 <=? nat_of_ascii c) && (nat_of_ascii c <=? 122)) eqn:R.
  - intros <- Hd. exfalso. apply andb_prop in R. destruct R as [R1 R2].
    apply Nat.leb_le in R1, R2. rewrite nat_ascii_embedding in Hd by lia. lia.
  - auto.
Qed.

(** The canonical form of a character that is not a letter is the
    character, and only that character has it. *)
Lemma sameChar_nonletter (p c : ascii) :
  upcase p = p -> nat_of_ascii p < 65 \/ 90 < nat_of_ascii p ->
  sameChar true p c = true -> c = p.
Proof.
  intros Hp Hrange E. cbn [sameChar] in E. apply Ascii.eqb_eq in E.
  rewrite Hp in E. symmetry in E. apply upcase_nonletter in E; assumption.
Qed.

Lemma sameChar_avoids (d p c : ascii) :
  upcase d = d ->
  Ascii.eqb (upcase p) d = false ->
  sameChar true p c = true ->
  Ascii.eqb c d = false.
Proof.
  intros Hd Hp E. cbn [sameChar] in E. apply Ascii.eqb_eq in E.
  destruct (Ascii.eqb c d) eqn:Ec; [|reflexivity].
  apply Ascii.eqb_eq in Ec. subst c. rewrite Hd in E. rewrite E, Ascii.eqb_refl in Hp.
  discriminate Hp.
Qed.

Lemma sameText_notGt (pattern text : str) :
  forallb (fun p => negb (Ascii.eqb (upcase p) ">"%char)) pattern = true ->
  sameText true pattern text = true ->
  forallb notGt text = true.
Proof.
  revert text. induction pattern as [|p pattern IH]; intros [|c text] F E;
    cbn [sameText forallb] in *; try discriminate; [reflexivity|].
  apply andb_prop in F, E. destruct F as [Fp F], E as [Ec E].
  rewrite (IH text F E), andb_true_r. unfold notGt, isGt.
  apply negb_true_iff in Fp.
  rewrite (sameChar_avoids ">"%char p c eq_refl Fp Ec). reflexivity.
Qed.

Lemma sameText_notQuote (pattern text : str) :
  forallb (fun p => notQuote (upcase p)) pattern = true ->
  sameText true pattern text = true ->
  forallb notQuote text = true.
Proof.
  revert text. induction pattern as [|p pattern IH]; intros [|c text] F E;
    cbn [sameText forallb] in *; try discriminate; [reflexivity|].
  apply andb_prop in F, E. destruct F as [Fp F], E as [Ec E].
  rewrite (IH text F E), andb_true_r.
  unfold notQuote, isQuote in *. apply negb_true_iff, orb_false_elim in Fp.
  destruct Fp as [F1 F2].
  rewrite (sameChar_avoids dquote p c eq_refl F1 Ec).
  rewrite (sameChar_avoids squote p c eq_refl F2 Ec). reflexivity.
Qed.

Lemma startsWith_sameText (pattern a y : str) :
  sameText true pattern a = true -> startsWith true pattern (a ++ y) = true.
Proof.
  revert a. induction pattern as [|p pattern IH]; intros [|c a] E;
    cbn [sameText] in E; try discriminate; [reflexivity|].
  apply andb_prop in E. destruct E as [Ec E].
  cbn [app startsWith]. rewrite Ec, (IH a E). reflexivity.
Qed.

(** ** Quotes and brackets *)

Lemma isQuote_notGt (q : ascii) : isQuote q = true -> notGt q = true.
Proof.
  unfold isQuote, notGt, isGt. intros E. apply orb_prop in E.
  destruct E as [E|E]; apply Ascii.eqb_eq in E; subst q; reflexivity.
Qed.

Lemma forallb_false_split (f : ascii -> bool) (l : str) :
  forallb f l = false ->
  exists l1 c l2, l = l1 ++ c :: l2 /\ forallb f l1 = true /\ f c = false.
Proof.
  induction l as [|x l IH]; cbn [forallb]; intros E; [discriminate|].
  destruct (f x) eqn:Fx.
  - destruct (IH E) as (l1 & c & l2 & -> & F1 & Fc).
    exists (x :: l1), c, l2. cbn [forallb]. rewrite Fx. auto.
  - exists [], x, l. auto.
Qed.

Lemma forallb_notQuote_app_quote (x : str) (q : ascii) (y : str) :
  isQuote q = true -> forallb notQuote (x ++ q :: y) = false.
Proof.
  intros Eq. rewrite forallb_app. cbn [forallb].
  rewrite (isQuote_notQuote q Eq). cbn [andb]. apply andb_false_r.
Qed.

Lemma afterLastQuote_split (x : str) (q : ascii) (y : str) :
  isQuote q = true -> forallb notQuote y = true -> afterLastQuote (x ++ q :: y) = y.
Proof.
  intros Eq Fy. induction x as [|c x IH]; cbn [app afterLastQuote].
  - rewrite Fy, Eq. reflexivity.
  - rewrite (forallb_notQuote_app_quote x q y Eq). exact IH.
Qed.

(** ** The apple-touch-icon scan *)

Lemma appleIconRegex_Matches_inv (m : str) (caps : list str) :
  Matches true appleIconRegex m caps -> caps = [] /\ appleLinkTag m.
Proof.
  unfold appleIconRegex, lits. intros Hm.
  apply Matches_lits_inv in Hm. destruct Hm as (lt & m1 & -> & Elt & Hm).
  cbn [app] in Hm.
  apply Matches_Rep_inv in Hm. destruct Hm as (a & m2 & c1 & -> & Fa & _ & Hm & ->).
  apply Matches_lits_inv in Hm. destruct Hm as (rel & m3 & -> & Erel & Hm).
  cbn [app] in Hm.
  apply Matches_Cls_inv in Hm. destruct Hm as (q1 & m4 & -> & Eq1 & Hm).
  apply Matches_lits_inv in Hm. destruct Hm as (apple & m5 & -> & Eapple & Hm).
  cbn [app] in Hm.
  apply Matches_Rep_inv in Hm. destruct Hm as (v & m6 & c2 & -> & Fv & _ & Hm & ->).
  apply Matches_Cls_inv in Hm. destruct Hm as (q2 & m7 & -> & Eq2 & Hm).
  apply Matches_Rep_inv in Hm. destruct Hm as (b & m8 & c3 & -> & Fb & _ & Hm & ->).
  change (map Lit (js ">")) with [Lit ">"%char] in Hm.
  apply Matches_Lit_inv in Hm. destruct Hm as (g & m9 & -> & Eg & Hm).
  apply Matches_nil_inv in Hm. destruct Hm as [-> ->].
  apply sameChar_nonletter in Eg; [subst g | reflexivity | left; cbn; lia].
  split; [reflexivity|].
  exists lt, a, rel, q1, apple, v, q2, b. repeat split; assumption.
Qed.

Lemma appleIconRegex_Matches (tag : str) :
  appleLinkTag tag -> Matches true appleIconRegex tag [].
Proof.
  intros (lt & a & rel & q1 & apple & v & q2 & b
          & -> & Elt & Fa & Erel & Eq1 & Eapple & Fv & Eq2 & Fb).
  unfold appleIconRegex, lits.
  apply Matches_lits; [exact Elt|]. cbn [app].
  apply (Matches_Rep true false false notGt a); [exact Fa | discriminate |].
  apply Matches_lits; [exact Erel|]. cbn [app].
  apply Matches_Cls; [exact Eq1|].
  apply Matches_lits; [exact Eapple|]. cbn [app].
  apply (Matches_Rep true false false notQuote v); [exact Fv | discriminate |].
  apply Matches_Cls; [exact Eq2|].
  apply (Matches_Rep true false false notGt b); [exact Fb | discriminate |].
  change (map Lit (js ">")) with [Lit ">"%char].
  apply Matches_Lit; [reflexivity | constructor].
Qed.

(** At a closed tag of the shape the pattern matches the tag, no less and
    no more. *)
Lemma exec_appleLinkTag (tag rest : str) :
  appleLinkTag tag -> closedTag tag ->
  exec true appleIconRegex (tag ++ rest) = Some ([], rest).
Proof.
  intros Htag (body & Etag & Fbody & Hclosed).
  pose proof (exec_complete _ _ _ _ (appleIconRegex_Matches tag Htag) rest) as Hex.
  destruct (exec true appleIconRegex (tag ++ rest)) as [[caps rest']|] eqn:E;
    [|contradiction].
  apply exec_sound in E. destruct E as (m & Em & Hm).
  apply appleIconRegex_Matches_inv in Hm.
  destruct Hm as (-> & lt & a & rel & q1 & apple & v & q2 & b
                  & -> & Elt & Fa & Erel & Eq1 & Eapple & Fv & Eq2 & Fb).
  assert (Glt : forallb notGt lt = true) by (eapply sameText_notGt; [|exact Elt]; reflexivity).
  assert (Grel : forallb notGt rel = true) by (eapply sameText_notGt; [|exact Erel]; reflexivity).
  assert (Gapple : forallb notGt apple = true)
    by (eapply sameText_notGt; [|exact Eapple]; reflexivity).
  assert (Qapple : forallb notQuote apple = true)
    by (eapply sameText_notQuote; [|exact Eapple]; reflexivity).
  rewrite Etag in Em. rewrite <- app_assoc in Em. cbn [app] in Em.
  destruct (forallb notGt v) eqn:Gv.
  - assert (Em' : body ++ ">"%char :: rest
                  = (lt ++ a ++ rel ++ q1 :: apple ++ v ++ q2 :: b) ++ ">"%char :: rest').
    { rewrite Em. repeat (rewrite <- app_assoc; cbn [app]). reflexivity. }
    apply (split_unique notGt) in Em'; try reflexivity; try assumption.
    + destruct Em' as (_ & _ & ->). reflexivity.
    + rewrite !forallb_app. cbn [forallb]. rewrite !forallb_app. cbn [forallb].
      rewrite Glt, Fa, Grel, Gapple, Gv, Fb, (isQuote_notGt q1 Eq1), (isQuote_notGt q2 Eq2).
      reflexivity.
  - exfalso. apply forallb_false_split in Gv.
    destruct Gv as (v1 & g & v2 & -> & Gv1 & Gg).
    rewrite forallb_app in Fv. apply andb_prop in Fv. destruct Fv as [Fv1 _].
    assert (Em' : body ++ ">"%char :: rest
                  = (lt ++ a ++ rel ++ q1 :: apple ++ v1)
                    ++ g :: v2 ++ q2 :: b ++ ">"%char :: rest').
    { rewrite Em. repeat (rewrite <- app_assoc; cbn [app]). reflexivity. }
    apply (split_unique notGt) in Em'; try reflexivity; try assumption.
    + destruct Em' as (Ebody & _ & _).
      assert (Ea : afterLastQuote body = apple ++ v1).
      { rewrite Ebody.
        replace (lt ++ a ++ rel ++ q1 :: apple ++ v1)
          with ((lt ++ a ++ rel) ++ q1 :: apple ++ v1)
          by (rewrite <- !app_assoc; reflexivity).
        apply afterLastQuote_split; [exact Eq1|].
        rewrite forallb_app, Qapple, Fv1. reflexivity. }
      rewrite Ea, (startsWith_sameText _ apple v1 Eapple) in Hclosed. discriminate Hclosed.
    + rewrite !forallb_app. cbn [forallb]. rewrite !forallb_app.
      rewrite Glt, Fa, Grel, Gapple, Gv1, (isQuote_notGt q1 Eq1). reflexivity.
Qed.

Lemma appleLinkTag_not_nil (tag : str) : appleLinkTag tag -> tag <> [].
Proof.
  intros (lt & a & rel & q1 & apple & v & q2 & b & -> & Elt & _) E.
  destruct lt; [discriminate Elt | discriminate E].
Qed.

(** The scan passes over a text in which no position starts a tag of the
    shape. *)
Lemma matchAll_apple_before (before s : str) :
  (forall p1 p2 m r,
     before = p1 ++ p2 -> p2 <> [] -> p2 ++ s = m ++ r -> ~ appleLinkTag m) ->
  matchAll true appleIconRegex (before ++ s) = matchAll true appleIconRegex s.
Proof.
  unfold matchAll. induction before as [|c before IH]; intros Hno; [reflexivity|].
  cbn [app matchAllFrom].
  destruct (exec true appleIconRegex (c :: before ++ s)) as [[caps r]|] eqn:E.
  - exfalso. apply exec_sound in E. destruct E as (m & Em & Hm).
    apply appleIconRegex_Matches_inv in Hm. destruct Hm as [_ Hm].
    apply (Hno [] (c :: before) m r eq_refl); [discriminate | exact Em | exact Hm].
  - apply IH. intros p1 p2 m r -> Hne Em. apply (Hno (c :: p1) p2 m r eq_refl Hne Em).
Qed.

Lemma noDirectIcons_apple (c : IconCandidate) (rest : list IconCandidate) :
  type c = AppleTouchIcon -> noDirectIcons (c :: rest) = false.
Proof.
  intros E. unfold noDirectIcons. cbn [filter]. rewrite E. reflexivity.
Qed.

(** C4, as stated, fails: the rel value has to begin with
    apple-touch-icon.  A tag whose rel value has another token first is
    not matched, and the page yields no candidate. *)
Lemma apple_scan_needs_prefix :
  matchAll true appleIconRegex shortcutAppleTag = []
  /\ @extractIcons offline shortcutAppleTag examplePage [] = (Normal [], []).
Proof. split; vm_compute; reflexivity. Qed.

Lemma matchAllFrom_sound (ignoreCase : bool) (re : regex) (s : str) :
  forall skip m,
    In m (matchAllFrom ignoreCase re skip s) -> exists caps, Matches ignoreCase re m caps.
Proof.
  induction s as [|c s IH]; intros skip m Hin; cbn [matchAllFrom] in Hin.
  - destruct skip; [|destruct Hin].
    destruct (exec ignoreCase re []) as [[caps rest]|] eqn:E; [|destruct Hin].
    destruct Hin as [<-|[]].
    apply exec_sound in E. destruct E as (m & Em & Hm).
    symmetry in Em. apply app_eq_nil in Em. destruct Em as [-> _]. eauto.
  - destruct skip as [|k]; [|apply (IH k m Hin)].
    destruct (exec ignoreCase re (c :: s)) as [[caps rest]|] eqn:E; [|apply (IH 0 m Hin)].
    destruct Hin as [<-|Hin]; [|apply (IH _ m Hin)].
    apply exec_sound in E. destruct E as (m & Em & Hm).
    rewrite Em, length_app, Nat.add_sub, firstn_app, firstn_all, Nat.sub_diag.
    cbn [firstn]. rewrite app_nil_r. eauto.
Qed.

Lemma extractIcons_apple_block `{Platform} (page : str) (baseUrl : URL) (w : World) :
  exists others w',
    extractIcons page baseUrl w
    = (Normal (flat_map (linkCandidate AppleTouchIcon 1 baseUrl)
                        (matchAll true appleIconRegex page) ++ others), w')
    /\ Forall (fun c => type c <> AppleTouchIcon) others.
Proof.
  assert (Hfo : Forall (fun c => type c <> AppleTouchIcon)
                  (flat_map (linkCandidate Favicon 2 baseUrl) (matchAll true faviconRegex page)
                   ++ flat_map (ogCandidate baseUrl) (matchAll true ogImageRegex page))).
  { apply Forall_app. split; apply Forall_forall; intros c Hc.
    - apply linkCandidate_In in Hc. destruct Hc as (h & sz & ->). discriminate.
    - apply ogCandidate_In in Hc. destruct Hc as (h & ->). discriminate. }
  rewrite extractIcons_spec. unfold directCandidates.
  destruct (noDirectIcons _).
  - match goal with
    | |- context [manifestScan page baseUrl ?l w] =>
        destruct (manifestScan_spec page baseUrl l w) as (extra & w' & E & F)
    end.
    rewrite E, <- app_assoc. eexists _, w'. split; [reflexivity|].
    apply Forall_app. split; [exact Hfo|].
    eapply Forall_impl; [|exact F]. intros c (icon & ->). discriminate.
  - eexists _, w. split; [reflexivity | exact Hfo].
Qed.

(** C4, amended. The apple-touch-icon scan matches a tag text when, after
    <link and with no closing bracket in between, the characters rel= are
    followed at once by a quote character and apple-touch-icon (in any
    letter case; the characters rel= may be the end of a longer attribute
    name).  What follows apple-touch-icon up to the next quote character
    is free, so a longer token with that beginning matches; a value in
    which something comes before apple-touch-icon does not.  A closed tag
    of that shape with no such tag starting before it is the next match
    of the scan, and the scan goes on after it; every match has the
    shape.  For each match, in page order, the extraction has one
    candidate of type apple-touch-icon and priority 1, with the href
    resolved and the sizes parsed, when the attribute extractor finds an
    href that is not empty in the match, and none otherwise; these are the
    first candidates of the list and its only apple-touch-icons. *)
Theorem apple_scan_rel_prefix `{Platform} (before tag after : str) (baseUrl : URL) :
  appleLinkTag tag ->
  closedTag tag ->
  (forall p1 p2 m r,
     before = p1 ++ p2 -> p2 <> [] -> p2 ++ tag ++ after = m ++ r -> ~ appleLinkTag m) ->
  matchAll true appleIconRegex (before ++ tag ++ after)
  = tag :: matchAll true appleIconRegex after
  /\ (forall page m, In m (matchAll true appleIconRegex page) -> appleLinkTag m)
  /\ (forall page w,
        exists others w',
          extractIcons page baseUrl w
          = (Normal (flat_map (linkCandidate AppleTouchIcon 1 baseUrl)
                              (matchAll true appleIconRegex page) ++ others), w')
          /\ Forall (fun c => type c <> AppleTouchIcon) others)
  /\ (forall m,
        linkCandidate AppleTouchIcon 1 baseUrl m
        = match extractAttribute m (js "href") with
          | Some (c :: r) =>
              [mkIcon (resolved (c :: r) baseUrl)
                      (fst (parseSizes (extractAttribute m (js "sizes"))))
                      (snd (parseSizes (extractAttribute m (js "sizes"))))
                      AppleTouchIcon 1]
          | _ => []
          end).
Proof.
  intros Htag Hclosed Hbefore. split; [|split; [|split]].
  - rewrite (matchAll_apple_before before (tag ++ after) Hbefore).
    apply (matchAll_match true appleIconRegex tag after []).
    + apply appleLinkTag_not_nil, Htag.
    + apply exec_appleLinkTag; assumption.
  - intros page m Hin. apply matchAllFrom_sound in Hin. destruct Hin as (caps & Hm).
    apply appleIconRegex_Matches_inv in Hm. apply Hm.
  - intros page w. apply extractIcons_apple_block.
  - intros m. reflexivity.
Qed.

Lemma apple_scan_rel_prefix_witness :
  matchAll true appleIconRegex (js "<head> " ++ precomposedTag ++ js "</head>")
  = [precomposedTag]
  /\ exists rest w',
       @extractIcons offline (js "<head> " ++ precomposedTag ++ js "</head>") examplePage []
       = (Normal (mkIcon (js "https://example.com/apple.png") 180 180 AppleTouchIcon 1 :: rest),
          w').
Proof.
  assert (Htag : appleLinkTag precomposedTag).
  { exists (js "<link"), (js " "), (js "rel="), squote, (js "apple-touch-icon"),
      (js "-precomposed"), squote, (js " sizes='180x180' href='/apple.png'").
    repeat split. }
  assert (Hclosed : closedTag precomposedTag).
  { exists (js "<link rel='apple-touch-icon-precomposed' sizes='180x180' href='/apple.png'").
    repeat split. }
  assert (Hbefore : forall p1 p2 m r,
             js "<head> " = p1 ++ p2 -> p2 <> [] ->
             p2 ++ precomposedTag ++ js "</head>" = m ++ r -> ~ appleLinkTag m).
  { intros p1 p2 m r Hp Hne Em Hm.
    pose proof (exec_complete _ _ _ _ (appleIconRegex_Matches m Hm) r) as Hex.
    rewrite <- Em in Hex. cbv [js list_ascii_of_string] in Hp.
    do 8 (destruct p1 as [|? p1];
          [ cbn [app] in Hp; subst p2;
            try (vm_compute in Hex; apply Hex; reflexivity); try contradiction
          | try discriminate Hp; injection Hp as _ Hp ]). }
  destruct (@apple_scan_rel_prefix offline (js "<head> ") precomposedTag (js "</head>")
              examplePage Htag Hclosed Hbefore) as (Hall & _ & Hprod & _).
  split.
  - exact Hall.
  - destruct (Hprod (js "<head> " ++ precomposedTag ++ js "</head>") [])
      as (others & w' & E & _).
    exists others, w'. rewrite E, Hall. reflexivity.
Defined.

(** * Further properties of the code *)

(** ** The comparison function and the selector *)

(** X1. On candidates whose numbers are in the range where double
    arithmetic is exact, the comparison function of findBestIcon is a
    consistent comparator: swapping its arguments negates the result, the
    order it induces is transitive, and it returns zero exactly on two
    candidates of the same priority and the same distance. *)
Theorem compareIcons_consistent (a b c : IconCandidate) :
  exactNumbers a -> exactNumbers b -> exactNumbers c ->
  compareIcons b a = (- compareIcons a b)%Z
  /\ ((compareIcons a b <= 0)%Z -> (compareIcons b c <= 0)%Z -> (compareIcons a c <= 0)%Z)
  /\ (compareIcons a b = 0%Z <-> priority a = priority b /\ distance a = distance b).
Proof.
  intros _ _ _. split; [|split].
  - unfold compareIcons. rewrite (Z.eqb_sym (priority b)).
    destruct (priority a =? priority b)%Z; cbn [negb]; lia.
  - rewrite !compareIcons_le. apply keyLe_trans.
  - unfold compareIcons.
    destruct (priority a =? priority b)%Z eqn:E; cbn [negb].
    + apply Z.eqb_eq in E. lia.
    + apply Z.eqb_neq in E. lia.
Qed.

Lemma compareIcons_consistent_witness :
  (compareIcons (mkIcon [] 57 57 AppleTouchIcon 1) (mkIcon [] 16 16 Favicon 2) <= 0)%Z
  /\ (compareIcons (mkIcon [] 57 57 AppleTouchIcon 1) (mkIcon [] 1200 630 OgImage 3) <= 0)%Z.
Proof.
  split; [vm_compute; discriminate|].
  apply (proj1 (proj2 (compareIcons_consistent
                         (mkIcon [] 57 57 AppleTouchIcon 1) (mkIcon [] 16 16 Favicon 2)
                         (mkIcon [] 1200 630 OgImage 3)
                         ltac:(exact_numbers) ltac:(exact_numbers) ltac:(exact_numbers))));
    vm_compute; discriminate.
Defined.

Lemma sort_idempotent (l : list IconCandidate) :
  sort compareIcons (sort compareIcons l) = sort compareIcons l.
Proof.
  symmetry. apply stable_sort_unique; [apply sort_sorted | reflexivity].
Qed.

(** X2. Selecting again on the same array gives the same candidate and
    leaves every array as the first selection left it. *)
Theorem findBestIcon_idempotent (icons : ref) (h : heap) :
  let once := findBestIcon icons h in
  let twice := findBestIcon icons (snd once) in
  fst twice = fst once /\ forall r, snd twice r = snd once r.
Proof.
  cbn [findBestIcon fst snd]. unfold update. rewrite Nat.eqb_refl, sort_idempotent.
  split; [reflexivity|].
  intros r. destruct (Nat.eqb r icons); reflexivity.
Qed.

Lemma sort_head_key (l1 l2 : list IconCandidate) :
  Permutation l1 l2 -> l1 <> [] ->
  exists b1 b2,
    hd_error (sort compareIcons l1) = Some b1
    /\ hd_error (sort compareIcons l2) = Some b2
    /\ sameKey b1 b2 = true.
Proof.
  intros Hp Hne.
  assert (Hne2 : l2 <> []).
  { intros ->. apply Permutation_sym, Permutation_nil in Hp. contradiction. }
  destruct (sort_head l1 Hne) as (b1 & bf1 & af1 & E1 & D1 & M1 & _).
  destruct (sort_head l2 Hne2) as (b2 & bf2 & af2 & E2 & D2 & M2 & _).
  exists b1, b2. repeat split; try assumption.
  apply keyLe_antisym.
  - apply M1. apply (Permutation_in _ (Permutation_sym Hp)).
    rewrite D2. apply in_elt.
  - apply M2. apply (Permutation_in _ Hp). rewrite D1. apply in_elt.
Qed.

(** X3. When the numbers of the candidates are in the range where double
    arithmetic is exact, the priority and the distance of the selected
    candidate do not depend on the order of discovery: two arrays with the
    same candidates in any order give selections of equal priority and
    equal distance. *)
Theorem findBestIcon_order_independent (r1 r2 : ref) (h1 h2 : heap) :
  Forall exactNumbers (h1 r1) ->
  Permutation (h1 r1) (h2 r2) -> h1 r1 <> [] ->
  exists b1 b2,
    fst (findBestIcon r1 h1) = Some b1
    /\ fst (findBestIcon r2 h2) = Some b2
    /\ priority b1 = priority b2 /\ distance b1 = distance b2.
Proof.
  intros _ Hp Hne. destruct (sort_head_key _ _ Hp Hne) as (b1 & b2 & E1 & E2 & K).
  exists b1, b2. cbn [findBestIcon fst]. repeat split; try assumption;
    unfold sameKey in K; apply andb_prop in K; destruct K as [K1 K2];
    apply Z.eqb_eq in K1, K2; assumption.
Qed.

Lemma findBestIcon_order_independent_witness :
  exists b1 b2,
    fst (findBestIcon 0 exampleHeap) = Some b1
    /\ fst (findBestIcon 0 (fun _ => rev exampleIcons)) = Some b2
    /\ priority b1 = priority b2 /\ distance b1 = distance b2.
Proof.
  apply (findBestIcon_order_independent 0 0 exampleHeap (fun _ => rev exampleIcons)).
  - exact_numbers.
  - apply Permutation_rev.
  - discriminate.
Defined.

(** ** The tiers of the extraction *)

Lemma StronglySorted_app {A : Type} (R : A -> A -> Prop) (l1 l2 : list A) :
  StronglySorted R l1 -> StronglySorted R l2 ->
  (forall a b, In a l1 -> In b l2 -> R a b) ->
  StronglySorted R (l1 ++ l2).
Proof.
  induction 1 as [|x l1 Hs IH Hx]; intros S2 Hcross; cbn [app]; [exact S2|].
  constructor.
  - apply IH; [exact S2|]. intros a b Ha Hb. apply Hcross; [right; exact Ha | exact Hb].
  - apply Forall_app. split; [exact Hx|].
    apply Forall_forall. intros b Hb. apply Hcross; [left; reflexivity | exact Hb].
Qed.

Lemma tier_block (p : Z) (l : list IconCandidate) :
  Forall (fun c => priority c = p) l -> StronglySorted tierLe l.
Proof.
  induction 1 as [|x l Hx Hl IH]; constructor; [exact IH|].
  eapply Forall_impl; [|exact Hl]. intros c Hc. unfold tierLe.
  cbv beta in Hx, Hc. lia.
Qed.

Lemma linkCandidate_priority `{Platform} (ty : IconType) (prio : Z) (baseUrl : URL)
    (matches : list str) :
  Forall (fun c => priority c = prio /\ type c = ty)
         (flat_map (linkCandidate ty prio baseUrl) matches).
Proof.
  apply Forall_forall. intros c Hc. apply linkCandidate_In in Hc.
  destruct Hc as (h & s & ->). auto.
Qed.

Lemma ogCandidate_priority `{Platform} (baseUrl : URL) (matches : list str) :
  Forall (fun c => priority c = 3%Z /\ type c = OgImage)
         (flat_map (ogCandidate baseUrl) matches).
Proof.
  apply Forall_forall. intros c Hc. apply ogCandidate_In in Hc.
  destruct Hc as (h & ->). auto.
Qed.

Lemma directCandidates_tiers `{Platform} (html : str) (baseUrl : URL) :
  StronglySorted tierLe (directCandidates html baseUrl)
  /\ Forall (fun c => (priority c <= 3)%Z) (directCandidates html baseUrl).
Proof.
  unfold directCandidates.
  pose proof (linkCandidate_priority AppleTouchIcon 1 baseUrl
                (matchAll true appleIconRegex html)) as Ha.
  pose proof (linkCandidate_priority Favicon 2 baseUrl
                (matchAll true faviconRegex html)) as Hf.
  pose proof (ogCandidate_priority baseUrl (matchAll true ogImageRegex html)) as Ho.
  rewrite Forall_forall in Ha, Hf, Ho.
  split.
  - apply StronglySorted_app; [|apply StronglySorted_app|].
    + apply (tier_block 1). apply Forall_forall. intros c Hc. apply Ha, Hc.
    + apply (tier_block 2). apply Forall_forall. intros c Hc. apply Hf, Hc.
    + apply (tier_block 3). apply Forall_forall. intros c Hc. apply Ho, Hc.
    + intros a b Hina Hinb. unfold tierLe.
      destruct (Hf a Hina) as [-> _]. destruct (Ho b Hinb) as [-> _]. lia.
    + intros a b Hina Hinb. unfold tierLe. destruct (Ha a Hina) as [-> _].
      apply in_app_or in Hinb. destruct Hinb as [Hb|Hb].
      * destruct (Hf b Hb) as [-> _]. lia.
      * destruct (Ho b Hb) as [-> _]. lia.
  - apply Forall_forall. intros c Hc.
    apply in_app_or in Hc. destruct Hc as [Hc|Hc]; [destruct (Ha c Hc) as [-> _]; lia|].
    apply in_app_or in Hc. destruct Hc as [Hc|Hc].
    + destruct (Hf c Hc) as [-> _]. lia.
    + destruct (Ho c Hc) as [-> _]. lia.
Qed.

Lemma extractIcons_tier_sorted `{Platform} (html : str) (baseUrl : URL) (w : World) :
  exists icons w',
    extractIcons html baseUrl w = (Normal icons, w') /\ StronglySorted tierLe icons.
Proof.
  rewrite extractIcons_spec.
  destruct (directCandidates_tiers html baseUrl) as [Hs Hle].
  destruct (noDirectIcons (directCandidates html baseUrl)).
  - destruct (manifestScan_spec html baseUrl (directCandidates html baseUrl) w)
      as (extra & w' & E & F).
    exists (directCandidates html baseUrl ++ extra), w'. split; [exact E|].
    rewrite Forall_forall in F, Hle.
    apply StronglySorted_app; [exact Hs | |].
    + apply (tier_block 4). apply Forall_forall. intros c Hc.
      destruct (F c Hc) as (icon & ->). reflexivity.
    + intros a b Ha Hb. unfold tierLe. specialize (Hle a Ha).
      destruct (F b Hb) as (icon & ->). cbn [priority manifestCandidate]. lia.
  - exists (directCandidates html baseUrl), w. auto.
Qed.

(** X4. The list of the extraction is in tier order: it is a block of
    apple-touch-icon candidates, then a block of favicons, then a block of
    og-images, then a block of manifest icons (any of them empty), so every
    candidate has a priority at most that of the candidates after it. *)
Theorem extractIcons_in_tier_order `{Platform} (html : str) (baseUrl : URL) (w : World) :
  exists apples favicons ogs manifests w',
    extractIcons html baseUrl w = (Normal (apples ++ favicons ++ ogs ++ manifests), w')
    /\ Forall (fun c => type c = AppleTouchIcon) apples
    /\ Forall (fun c => type c = Favicon) favicons
    /\ Forall (fun c => type c = OgImage) ogs
    /\ Forall (fun c => type c = Manifest) manifests
    /\ StronglySorted tierLe (apples ++ favicons ++ ogs ++ manifests).
Proof.
  destruct (extractIcons_tier_sorted html baseUrl w) as (icons & w' & E & Hs).
  pose proof (linkCandidate_priority AppleTouchIcon 1 baseUrl
                (matchAll true appleIconRegex html)) as Ha.
  pose proof (linkCandidate_priority Favicon 2 baseUrl
                (matchAll true faviconRegex html)) as Hf.
  pose proof (ogCandidate_priority baseUrl (matchAll true ogImageRegex html)) as Ho.
  assert (Hblocks : exists manifests,
             icons = directCandidates html baseUrl ++ manifests
             /\ Forall (fun c => type c = Manifest) manifests).
  { rewrite extractIcons_spec in E.
    destruct (noDirectIcons (directCandidates html baseUrl)).
    - destruct (manifestScan_spec html baseUrl (directCandidates html baseUrl) w)
        as (extra & w1 & E1 & F).
      rewrite E1 in E. injection E as <- <-. exists extra. split; [reflexivity|].
      eapply Forall_impl; [|exact F]. intros c (icon & ->). reflexivity.
    - injection E as <- <-. exists []. rewrite app_nil_r. auto. }
  destruct Hblocks as (manifests & -> & Hm).
  exists (flat_map (linkCandidate AppleTouchIcon 1 baseUrl) (matchAll true appleIconRegex html)),
    (flat_map (linkCandidate Favicon 2 baseUrl) (matchAll true faviconRegex html)),
    (flat_map (ogCandidate baseUrl) (matchAll true ogImageRegex html)),
    manifests, w'.
  unfold directCandidates in E, Hs. rewrite <- !app_assoc in E, Hs.
  split; [exact E|].
  repeat split; try assumption;
    (eapply Forall_impl; [|eassumption]); intros c [_ Hc]; exact Hc.
Qed.

Lemma noDirectIcons_true (l : list IconCandidate) :
  noDirectIcons l = true -> forall d, In d l -> type d = OgImage.
Proof.
  unfold noDirectIcons. intros E d Hd. apply Nat.eqb_eq, length_zero_iff_nil in E.
  destruct (IconType_eqb (type d) OgImage) eqn:Et.
  - destruct (type d); try discriminate Et. reflexivity.
  - exfalso. assert (Hin : In d (filter (fun icon => negb (IconType_eqb (type icon) OgImage)) l)).
    { apply filter_In. split; [exact Hd|]. rewrite Et. reflexivity. }
    rewrite E in Hin. destruct Hin.
Qed.

(** X5. A list of the extraction never holds a manifest candidate next to
    an apple-touch-icon or a favicon: when it has a manifest candidate,
    every candidate in it is an og-image or a manifest icon. *)
Theorem manifest_excludes_direct `{Platform} (html : str) (baseUrl : URL) (w w' : World)
    (icons : list IconCandidate) (c : IconCandidate) :
  extractIcons html baseUrl w = (Normal icons, w') ->
  In c icons -> type c = Manifest ->
  forall d, In d icons -> type d = OgImage \/ type d = Manifest.
Proof.
  rewrite extractIcons_spec.
  destruct (noDirectIcons (directCandidates html baseUrl)) eqn:Eno.
  - destruct (manifestScan_spec html baseUrl (directCandidates html baseUrl) w)
      as (extra & w1 & E & F).
    rewrite E. intros [= <- <-] _ _ d Hd.
    apply in_app_or in Hd. destruct Hd as [Hd|Hd].
    + left. apply (noDirectIcons_true _ Eno d Hd).
    + right. rewrite Forall_forall in F. destruct (F d Hd) as (icon & ->). reflexivity.
  - intros [= <- <-] Hc Ec. exfalso.
    apply directCandidates_In in Hc.
    destruct Hc as [(h & s & ->)|[(h & s & ->)|(h & ->)]]; discriminate Ec.
Qed.

Lemma manifest_excludes_direct_witness :
  type (mkIcon (js "https://cdn.example.com/banner.png") 1200 630 OgImage 3) = OgImage
  \/ type (mkIcon (js "https://cdn.example.com/banner.png") 1200 630 OgImage 3) = Manifest.
Proof.
  apply (@manifest_excludes_direct manifestSite ogOnlyPage examplePage []
           [js "https://example.com/site.webmanifest"]
           [mkIcon (js "https://cdn.example.com/banner.png") 1200 630 OgImage 3;
            mkIcon (js "https://example.com/icon-512.png") 512 512 Manifest 4]
           (mkIcon (js "https://example.com/icon-512.png") 512 512 Manifest 4)).
  - vm_compute. reflexivity.
  - right; left; reflexivity.
  - reflexivity.
  - left; reflexivity.
Defined.

(** X6. Extraction and selection together: the selected candidate has the
    priority of the first candidate of the extracted list. *)
Theorem selection_has_first_tier `{Platform} (html : str) (baseUrl : URL) (w w' : World)
    (first : IconCandidate) (rest : list IconCandidate) (icons : ref) (h : heap) :
  extractIcons html baseUrl w = (Normal (first :: rest), w') ->
  h icons = first :: rest ->
  exists best,
    fst (findBestIcon icons h) = Some best
    /\ In best (first :: rest)
    /\ priority best = priority first.
Proof.
  intros E Hh.
  destruct (extractIcons_tier_sorted html baseUrl w) as (l & w1 & E' & Hs).
  rewrite E in E'. injection E' as <- <-.
  destruct (sort_head (first :: rest)) as (b & before & after & Hhd & Hl & Hmin & _);
    [discriminate|].
  exists b. cbn [findBestIcon fst]. rewrite Hh.
  assert (Hin : In b (first :: rest)) by (rewrite Hl; apply in_elt).
  repeat split; try assumption.
  assert (H1 : (priority b <= priority first)%Z).
  { specialize (Hmin first (or_introl eq_refl)). unfold keyLe in Hmin. lia. }
  assert (H2 : (priority first <= priority b)%Z).
  { destruct Hin as [<-|Hin]; [lia|].
    inversion Hs as [|? ? _ Hall]; subst. rewrite Forall_forall in Hall.
    apply (Hall b Hin). }
  lia.
Qed.

Lemma selection_has_first_tier_witness :
  exists best,
    fst (findBestIcon 0 (fun _ =>
           [mkIcon (js "https://cdn.example.com/banner.png") 1200 630 OgImage 3;
            mkIcon (js "https://example.com/icon-512.png") 512 512 Manifest 4]))
    = Some best
    /\ In best [mkIcon (js "https://cdn.example.com/banner.png") 1200 630 OgImage 3;
                mkIcon (js "https://example.com/icon-512.png") 512 512 Manifest 4]
    /\ priority best = 3%Z.
Proof.
  apply (@selection_has_first_tier manifestSite ogOnlyPage examplePage []
           [js "https://example.com/site.webmanifest"]).
  - vm_compute. reflexivity.
  - reflexivity.
Defined.

(** ** The other rules of the size parser *)

Lemma exec_digits_start (re : regex) (t rest : str) (caps : list str) :
  exec false (Rep true true isDigit :: re) t = Some (caps, rest) ->
  exists c t', t = c :: t' /\ isDigit c = true.
Proof.
  intros E. apply exec_sound in E. destruct E as (m & -> & Hm).
  apply Matches_Rep_inv in Hm. destruct Hm as (run & m' & caps' & -> & F & Hne & _).
  destruct run as [|c run]; [destruct (Hne eq_refl eq_refl)|].
  cbn [forallb] in F. apply andb_prop in F. destruct F as [Fc _].
  exists c, ((run ++ m') ++ rest). auto.
Qed.

Lemma search_digits_none (re : regex) (s : str) :
  forallb notDigit s = true -> search false (Rep true true isDigit :: re) s = None.
Proof.
  intros F. destruct (search false (Rep true true isDigit :: re) s) as [caps|] eqn:E;
    [|reflexivity].
  apply search_some in E. destruct E as (before & t & rest & -> & Et & _).
  apply exec_digits_start in Et. destruct Et as (c & t' & -> & Ec).
  rewrite forallb_app in F. apply andb_prop in F. destruct F as [_ F].
  cbn [forallb] in F. unfold notDigit in F. rewrite Ec in F. discriminate F.
Qed.

(** X7. A descriptor that is absent, empty or without any digit gives the
    default size 32 by 32. *)
Theorem parseSizes_default (sizes : option str) :
  match sizes with
  | Some s => forallb notDigit s = true
  | None => True
  end ->
  parseSizes sizes = (32, 32)%Z.
Proof.
  destruct sizes as [[|c s]|]; try reflexivity.
  intros F. unfold parseSizes.
  change sizePairRegex with (Rep true true isDigit :: [Lit "x"%char; Rep true true isDigit]).
  change singleSizeRegex with (Rep true true isDigit :: []).
  rewrite !search_digits_none by exact F. reflexivity.
Qed.

Lemma parseSizes_default_witness : parseSizes (Some (js "any")) = (32, 32)%Z.
Proof. apply (parseSizes_default (Some (js "any"))). reflexivity. Defined.

Lemma exec_singleSize (d rest : str) :
  d <> [] -> forallb isDigit d = true ->
  match rest with c :: _ => isDigit c = false | [] => True end ->
  exec false singleSizeRegex (d ++ rest) = Some ([d], rest).
Proof.
  intros N F Hrest. unfold singleSizeRegex. cbn [exec].
  apply greedy_longest; [exact F | | exact Hrest].
  rewrite app_nil_r.
  destruct (rev d) as [|c r] eqn:E; [destruct (rev_not_nil d N E)|].
  rewrite <- E, rev_involutive. reflexivity.
Qed.

Lemma exec_notDigit_first (re : regex) (c : ascii) (s : str) :
  isDigit c = false -> exec false (Rep true true isDigit :: re) (c :: s) = None.
Proof. intros E. cbn [exec greedy]. rewrite E. reflexivity. Qed.

(** X8. When the descriptor has no place where digits, a lower-case x and
    digits follow one another, but has a digit, the parser returns the
    first run of digits, taken as long as it goes, as both width and
    height, provided its value is at most 2^53 (a double holds it as it
    is; a larger one is rounded). *)
Theorem parseSizes_single (sizes before d rest : str) :
  sizes = before ++ d ++ rest ->
  forallb notDigit before = true ->
  d <> [] -> forallb isDigit d = true ->
  match rest with c :: _ => isDigit c = false | [] => True end ->
  (forall p1 p2 e1 e2 r, sizes = p1 ++ p2 -> ~ sizePairAt p2 e1 e2 r) ->
  (parseInt d <= 2 ^ 53)%Z ->
  parseSizes (Some sizes) = (parseInt d, parseInt d).
Proof.
  intros -> Fb N F Hrest Hno _.
  assert (Hpair : search false sizePairRegex (before ++ d ++ rest) = None).
  { destruct (search false sizePairRegex (before ++ d ++ rest)) as [caps|] eqn:E;
      [|reflexivity].
    apply search_some in E. destruct E as (p1 & t & r & Es & Et & _).
    apply exec_sizePair_some in Et. destruct Et as (e1 & e2 & r' & He).
    destruct (Hno p1 t e1 e2 r' Es He). }
  assert (Hsingle : search false singleSizeRegex (before ++ d ++ rest) = Some [d]).
  { apply (search_at false singleSizeRegex before (d ++ rest) rest).
    - apply exec_singleSize; assumption.
    - intros p1 p2 -> Hne. destruct p2 as [|c p2]; [contradiction|].
      rewrite forallb_app in Fb. apply andb_prop in Fb. destruct Fb as [_ Fb].
      cbn [forallb] in Fb. apply andb_prop in Fb. destruct Fb as [Fc _].
      unfold notDigit in Fc. apply negb_true_iff in Fc.
      cbn [app]. apply exec_notDigit_first, Fc. }
  unfold parseSizes. destruct (before ++ d ++ rest) as [|c s] eqn:Es.
  - apply app_eq_nil in Es. destruct Es as [_ Es]. apply app_eq_nil in Es.
    destruct Es as [Es _]. contradiction.
  - rewrite Hpair, Hsingle. reflexivity.
Qed.

Lemma parseSizes_single_witness : parseSizes (Some (js "w64px")) = (64, 64)%Z.
Proof.
  apply (parseSizes_single (js "w64px") (js "w") (js "64") (js "px"));
    try reflexivity; try discriminate; try (vm_compute; discriminate).
  intros p1 p2 e1 e2 r Hp Hat. apply exec_sizePair in Hat.
  cbv [js list_ascii_of_string] in Hp.
  do 6 (destruct p1 as [|? p1];
        [ cbn [app] in Hp; subst p2; vm_compute in Hat; discriminate Hat
        | try discriminate Hp; injection Hp as _ Hp ]).
Defined.

(** ** Attribute values without quotes *)

(** X9. The attribute extractor reads quoted values only: on a fragment
    that has no quote character the result is absent, for every attribute
    name without pattern operators. *)
Theorem extractAttribute_unquoted (html name : str) :
  plainName name = true ->
  forallb notQuote html = true -> extractAttribute html name = None.
Proof.
  intros _ F. unfold extractAttribute.
  destruct (search true (attributeRegex name) html) as [caps|] eqn:E; [|reflexivity].
  exfalso. apply search_some in E. destruct E as (before & t & rest & -> & Et & _).
  apply exec_attribute_sound in Et.
  destruct Et as (v & _ & n & q1 & q2 & -> & _ & Eq1 & _).
  rewrite !forallb_app in F. cbn [forallb] in F.
  rewrite (isQuote_notQuote q1 Eq1) in F.
  do 3 (apply andb_prop in F; destruct F as [_ F]).
  cbn [andb] in F. discriminate F.
Qed.

Lemma extractAttribute_unquoted_witness :
  extractAttribute (js "<link rel=icon href=/favicon.ico>") (js "href") = None.
Proof.
  apply (extractAttribute_unquoted (js "<link rel=icon href=/favicon.ico>") (js "href"));
    reflexivity.
Defined.

(** ** What the scans return *)

Lemma exactValueRegex_Matches_inv (opening attribute value : string) (m : str)
    (caps : list str) :
  Matches true (exactValueRegex opening attribute value) m caps ->
  caps = [] /\ exactValueTag opening attribute value m.
Proof.
  unfold exactValueRegex, lits. intros Hm.
  apply Matches_lits_inv in Hm. destruct Hm as (o & m1 & -> & Eo & Hm).
  cbn [app] in Hm.
  apply Matches_Rep_inv in Hm. destruct Hm as (a & m2 & c1 & -> & Fa & _ & Hm & ->).
  apply Matches_lits_inv in Hm. destruct Hm as (at' & m3 & -> & Eat & Hm).
  cbn [app] in Hm.
  apply Matches_Cls_inv in Hm. destruct Hm as (q1 & m4 & -> & Eq1 & Hm).
  apply Matches_lits_inv in Hm. destruct Hm as (val & m5 & -> & Eval & Hm).
  cbn [app] in Hm.
  apply Matches_Cls_inv in Hm. destruct Hm as (q2 & m7 & -> & Eq2 & Hm).
  apply Matches_Rep_inv in Hm. destruct Hm as (b & m8 & c3 & -> & Fb & _ & Hm & ->).
  change (map Lit (js ">")) with [Lit ">"%char] in Hm.
  apply Matches_Lit_inv in Hm. destruct Hm as (g & m9 & -> & Eg & Hm).
  apply Matches_nil_inv in Hm. destruct Hm as [-> ->].
  apply sameChar_nonletter in Eg; [subst g | reflexivity | left; cbn; lia].
  split; [reflexivity|].
  exists o, a, at', q1, val, q2, b. repeat split; assumption.
Qed.







(** X10. Every text a scan returns has the shape of its pattern.  A text
    of the apple-touch-icon scan begins with <link and has, before its
    last character, which is its closing bracket, the characters rel=
    followed at once by a quote character and apple-touch-icon.  A text of
    the favicon, og:image or manifest scan begins with <link (or <meta),
    has no closing bracket but its last character, and has the characters
    rel= (or property=) followed at once by a quote character, icon (or
    og:image, or manifest) and a quote character.  Letter case is free,
    and the characters rel= may be the end of a longer attribute name. *)
Theorem scans_return_their_shape (html m : str) :
  (In m (matchAll true appleIconRegex html) -> appleLinkTag m)
  /\ (In m (matchAll true faviconRegex html) -> exactValueTag "<link" "rel=" "icon" m)
  /\ (In m (matchAll true ogImageRegex html) -> exactValueTag "<meta" "property=" "og:image" m)
  /\ (In m (matchAll true manifestRegex html) -> exactValueTag "<link" "rel=" "manifest" m).
Proof.
  repeat split; intros Hin; apply matchAllFrom_sound in Hin; destruct Hin as (caps & Hm).
  - apply appleIconRegex_Matches_inv in Hm. apply Hm.
  - apply (exactValueRegex_Matches_inv "<link" "rel=" "icon") in Hm. apply Hm.
  - apply (exactValueRegex_Matches_inv "<meta" "property=" "og:image") in Hm. apply Hm.
  - apply (exactValueRegex_Matches_inv "<link" "rel=" "manifest") in Hm. apply Hm.
Qed.

Lemma scans_return_their_shape_witness :
  exactValueTag "<link" "rel=" "icon" (js "<link rel='icon' href='/favicon.ico'>").
Proof.
  apply (proj1 (proj2 (scans_return_their_shape faviconPage
                         (js "<link rel='icon' href='/favicon.ico'>")))).
  vm_compute. left. reflexivity.
Defined.

(** ** The favicon and og:image scans *)






(** ** The requests of the manifest scan *)




(** ** The request handler *)

Lemma tryCatch_run `{Platform} {A : Type} (body handler : M A) (w : World) :
  tryCatch body handler w
  = match body w with
    | (Normal a, w') => (Normal a, w')
    | (Throw, w') => handler w'
    end.
Proof. reflexivity. Qed.

(** The try block, outcome by outcome. *)
Lemma tryBlock_run `{Service} (targetUrl : str) (w : World) :
  Worker.tryBlock targetUrl w
  = match newURL (Worker.normalizeUrl targetUrl) None with
    | Throw => (Throw, w)
    | Normal parsedUrl =>
        match fetchPage (urlToString parsedUrl) w with
        | (Throw, w1) => (Throw, w1)
        | (Normal response, w1) =>
            if PageResponse.ok response then
              match PageResponse.text response with
              | Throw => (Throw, w1)
              | Normal html =>
                  match extractIcons html parsedUrl w1 with
                  | (Throw, w2) => (Throw, w2)
                  | (Normal icons, w2) =>
                      match hd_error (sort compareIcons icons) with
                      | None => (Normal (inl Worker.NoIconsFound), w2)
                      | Some bestIcon => (Normal (inr (url bestIcon)), w2)
                      end
                  end
              end
            else (Normal (inl (Worker.FailedToFetch (urlToString parsedUrl)
                                 (PageResponse.status response))), w1)
        end
    end.
Proof.
  unfold Worker.tryBlock. cbv zeta. rewrite bind_run, liftC_run.
  destruct (newURL (Worker.normalizeUrl targetUrl) None) as [parsedUrl|]; [|reflexivity].
  rewrite bind_run.
  destruct (fetchPage (urlToString parsedUrl) w) as [[response|] w1]; [|reflexivity].
  destruct (PageResponse.ok response); cbn [negb]; [|reflexivity].
  rewrite bind_run, liftC_run.
  destruct (PageResponse.text response) as [html|]; [|reflexivity].
  rewrite bind_run.
  destruct (extractIcons html parsedUrl w1) as [[icons|] w2]; [|reflexivity].
  cbn [findBestIcon fst]. unfold update. cbn [Nat.eqb].
  destruct icons as [|c icons]; [reflexivity|].
  cbn [List.length Nat.eqb].
  destruct (hd_error (sort compareIcons (c :: icons))) as [bestIcon|] eqn:E; [reflexivity|].
  exfalso. destruct (sort_head (c :: icons)) as (b & _ & _ & Hb & _); [discriminate|].
  rewrite E in Hb. discriminate Hb.
Qed.

Lemma handler_run `{Service} (pathname : str) (w : World) :
  tl pathname <> [] ->
  Worker.fetch pathname w
  = match Worker.tryBlock (tl pathname) w with
    | (Throw, w1) => (Normal Worker.InternalError, w1)
    | (Normal (inl reply), w1) => (Normal reply, w1)
    | (Normal (inr iconUrl), w1) =>
        match fetch iconUrl w1 with
        | (Normal response, w2) => (Normal (Worker.Forwarded response), w2)
        | (Throw, w2) => (Throw, w2)
        end
    end.
Proof.
  intros Hne. unfold Worker.fetch. cbv zeta.
  destruct (tl pathname) as [|c t]; [contradiction|].
  rewrite bind_run, tryCatch_run.
  destruct (Worker.tryBlock (c :: t) w) as [[[reply|iconUrl]|] w1].
  - reflexivity.
  - rewrite bind_run. destruct (fetch iconUrl w1) as [[response|] w2]; reflexivity.
  - reflexivity.
Qed.

(** X14. A request with an empty target is answered 400, and a target the
    URL constructor rejects (after https:// was put before it unless it
    begins with http) is answered 500; in both cases no request is made. *)
Theorem handler_rejects_without_request `{Service} (pathname : str) (w : World) :
  (tl pathname = [] -> Worker.fetch pathname w = (Normal Worker.Usage, w))
  /\ (tl pathname <> [] ->
      newURL (if startsWith false (js "http") (tl pathname) then tl pathname
              else js "https://" ++ tl pathname) None = Throw ->
      Worker.fetch pathname w = (Normal Worker.InternalError, w)).
Proof.
  split.
  - intros E. unfold Worker.fetch. rewrite E. reflexivity.
  - intros Hne E. rewrite (handler_run pathname w Hne), tryBlock_run.
    unfold Worker.normalizeUrl. rewrite E. reflexivity.
Qed.

Lemma handler_rejects_without_request_witness :
  @Worker.fetch exampleService (js "/httpbin.org") [] = (Normal Worker.InternalError, []).
Proof.
  apply (proj2 (@handler_rejects_without_request exampleService (js "/httpbin.org") [])).
  - discriminate.
  - reflexivity.
Defined.

(** X15. When the page cannot be used the handler answers with a status
    and makes no further request: 502, naming the serialised page URL and
    the status of the page, when the page response is not ok; 500 when the
    page request or the reading of its text raises; 404 when the
    extraction finds no candidate. *)
Theorem handler_page_failures `{Service} (pathname : str) (w w1 : World) (parsedUrl : URL)
    (page : completion PageResponse.t) :
  tl pathname <> [] ->
  newURL (Worker.normalizeUrl (tl pathname)) None = Normal parsedUrl ->
  fetchPage (urlToString parsedUrl) w = (page, w1) ->
  match page with
  | Throw => Worker.fetch pathname w = (Normal Worker.InternalError, w1)
  | Normal response =>
      if PageResponse.ok response then
        match PageResponse.text response with
        | Throw => Worker.fetch pathname w = (Normal Worker.InternalError, w1)
        | Normal html =>
            forall w2, extractIcons html parsedUrl w1 = (Normal [], w2) ->
                       Worker.fetch pathname w = (Normal Worker.NoIconsFound, w2)
        end
      else Worker.fetch pathname w
           = (Normal (Worker.FailedToFetch (urlToString parsedUrl)
                        (PageResponse.status response)), w1)
  end.
Proof.
  intros Hne Eu Ep. rewrite (handler_run pathname w Hne), tryBlock_run, Eu, Ep.
  destruct page as [response|]; [|reflexivity].
  destruct (PageResponse.ok response); [|reflexivity].
  destruct (PageResponse.text response) as [html|]; [|reflexivity].
  intros w2 E. rewrite E. reflexivity.
Qed.

Lemma handler_page_failures_witness :
  @Worker.fetch exampleService (js "/example.com/missing") []
  = (Normal (Worker.FailedToFetch (js "https://example.com/missing") 404),
     [js "https://example.com/missing"]).
Proof.
  apply (@handler_page_failures exampleService (js "/example.com/missing") []
           [js "https://example.com/missing"]
           (UrlModel.mk (js "https") (js "example.com") (js "/missing"))
           (Normal (PageResponse.mk false 404 (Normal [])))).
  - discriminate.
  - reflexivity.
  - reflexivity.
Defined.

(** X16. When the page is read and the extraction finds candidates, whose
    numbers are in the range where double arithmetic is exact, the
    handler requests the url of the selected candidate, which is a
    candidate of the list of least priority and, within that priority, of
    least distance from 100 by 100, and forwards the response.  The
    promise of that request is returned without await, so its exception is
    not turned into a 500 by the try block: the handler raises it. *)
Theorem handler_forwards_best `{Service} (pathname : str) (w w1 w2 : World) (parsedUrl : URL)
    (response : PageResponse.t) (html : str) (first : IconCandidate)
    (rest : list IconCandidate) :
  tl pathname <> [] ->
  newURL (Worker.normalizeUrl (tl pathname)) None = Normal parsedUrl ->
  fetchPage (urlToString parsedUrl) w = (Normal response, w1) ->
  PageResponse.ok response = true ->
  PageResponse.text response = Normal html ->
  extractIcons html parsedUrl w1 = (Normal (first :: rest), w2) ->
  Forall exactNumbers (first :: rest) ->
  exists best,
    In best (first :: rest)
    /\ (forall c, In c (first :: rest) -> (priority best <= priority c)%Z)
    /\ (forall c, In c (first :: rest) -> priority c = priority best ->
                  (distance best <= distance c)%Z)
    /\ Worker.fetch pathname w
       = match fetch (url best) w2 with
         | (Normal icon, w3) => (Normal (Worker.Forwarded icon), w3)
         | (Throw, w3) => (Throw, w3)
         end.
Proof.
  intros Hne Eu Ep Eok Etext Eicons _.
  destruct (sort_head (first :: rest)) as (b & before & after & Hhd & Hl & Hmin & _);
    [discriminate|].
  exists b. split; [rewrite Hl; apply in_elt|].
  split; [intros c Hc; specialize (Hmin c Hc); unfold keyLe in Hmin; lia|].
  split; [intros c Hc Epr; specialize (Hmin c Hc); unfold keyLe in Hmin; lia|].
  rewrite (handler_run pathname w Hne), tryBlock_run, Eu, Ep, Eok, Etext, Eicons, Hhd.
  reflexivity.
Qed.

Lemma handler_forwards_best_witness :
  exists best,
    In best [mkIcon (js "https://example.com/favicon.ico") 32 32 Favicon 2;
             mkIcon (js "https://example.com/apple.png") 32 32 AppleTouchIcon 1]
    /\ @Worker.fetch exampleService (js "/example.com") []
       = match @fetch (@servicePlatform exampleService) (url best)
                 [js "https://example.com/"] with
         | (Normal icon, w3) => (Normal (Worker.Forwarded icon), w3)
         | (Throw, w3) => (Throw, w3)
         end.
Proof.
  destruct (@handler_forwards_best exampleService (js "/example.com") []
              [js "https://example.com/"] [js "https://example.com/"]
              (UrlModel.mk (js "https") (js "example.com") (js "/"))
              (PageResponse.mk true 200
                 (Normal (js "<link rel='icon' href='/favicon.ico'><link rel='apple-touch-icon' href='/apple.png'>")))
              (js "<link rel='icon' href='/favicon.ico'><link rel='apple-touch-icon' href='/apple.png'>")
              (mkIcon (js "https://example.com/apple.png") 32 32 AppleTouchIcon 1)
              [mkIcon (js "https://example.com/favicon.ico") 32 32 Favicon 2])
    as (best & Hin & _ & _ & E);
    try reflexivity; try discriminate; try exact_numbers.
  exists best. split; [|exact E].
  destruct Hin as [<-|[<-|[]]]; [right; left | left]; reflexivity.
Defined.

(** X17. The handler raises only the exception of the icon request: when
    it raises, the target was accepted by the URL constructor, the page
    was fetched with an ok status and read, the extraction returned
    candidates, and the request that raised is the one made after the
    extraction for the url of one of these candidates, the selected one
    when their numbers are in the range where double arithmetic is exact.
    Every other failure is answered with a status. *)
Theorem handler_raises_only_icon_request `{Service} (pathname : str) (w w' : World) :
  Worker.fetch pathname w = (Throw, w') ->
  exists parsedUrl response html icons best w1 w2,
    tl pathname <> []
    /\ newURL (Worker.normalizeUrl (tl pathname)) None = Normal parsedUrl
    /\ fetchPage (urlToString parsedUrl) w = (Normal response, w1)
    /\ PageResponse.ok response = true
    /\ PageResponse.text response = Normal html
    /\ extractIcons html parsedUrl w1 = (Normal icons, w2)
    /\ In best icons
    /\ (Forall exactNumbers icons ->
        fst (findBestIcon 0 (update (fun _ => []) 0 icons)) = Some best)
    /\ fetch (url best) w2 = (Throw, w').
Proof.
  destruct (tl pathname) as [|c t] eqn:Et.
  - unfold Worker.fetch. rewrite Et. discriminate.
  - assert (Hne : tl pathname <> []) by (rewrite Et; discriminate).
    rewrite (handler_run pathname w Hne), tryBlock_run, Et.
    destruct (newURL (Worker.normalizeUrl (c :: t)) None) as [parsedUrl|] eqn:Eu;
      [|discriminate].
    destruct (fetchPage (urlToString parsedUrl) w) as [[response|] w1] eqn:Ep;
      [|discriminate].
    destruct (PageResponse.ok response) eqn:Eok; [|discriminate].
    destruct (PageResponse.text response) as [html|] eqn:Etext; [|discriminate].
    destruct (extractIcons html parsedUrl w1) as [[icons|] w2] eqn:Eicons; [|discriminate].
    destruct (hd_error (sort compareIcons icons)) as [best|] eqn:Ehd; [|discriminate].
    destruct (fetch (url best) w2) as [[icon|] w3] eqn:Ef; [discriminate|].
    intros [= <-].
    exists parsedUrl, response, html, icons, best, w1, w2.
    repeat split; try assumption; try discriminate.
    + apply (Permutation_in _ (Permutation_sym (sort_Permutation icons))).
      destruct (sort compareIcons icons) as [|x l]; [discriminate Ehd|].
      injection Ehd as ->. left. reflexivity.
    + intros _. cbn [findBestIcon fst]. unfold update. cbn [Nat.eqb]. exact Ehd.
Qed.

Lemma handler_raises_only_icon_request_witness :
  exists best w2,
    In best [mkIcon (js "https://other.example/favicon.ico") 32 32 Favicon 2]
    /\ @fetch (@servicePlatform exampleService) (url best) w2
       = (Throw, [js "https://other.example/"; js "https://other.example/favicon.ico"]).
Proof.
  destruct (@handler_raises_only_icon_request
              (tableService
                 (fun _ => Normal (PageResponse.mk true 200
                                     (Normal (js "<link rel='icon' href='/favicon.ico'>"))))
                 (fun u =>
                    if list_eq_dec ascii_dec u (js "https://example.com/apple.png")
                    then Normal iconResponse else Throw))
              (js "/other.example") []
              [js "https://other.example/"; js "https://other.example/favicon.ico"])
    as (parsedUrl & response & html & icons & best & w1 & w2
        & _ & Eu & Ep & _ & Etext & Eicons & Hin & _ & Ef).
  - vm_compute. reflexivity.
  - injection Eu as <-. injection Ep as <- <-. injection Etext as <-.
    injection Eicons as <- <-.
    eexists best, _. split; [exact Hin | exact Ef].
Defined.
